(** * treeano: the network build and hyperparameter resolution engine

    A shallow embedding of [treeano/core/network.py]: the [Network] that owns
    the node state store and drives [build], and the [RelativeNetwork] view a
    node's hooks receive.  Python dictionaries are [gmap]s keyed by strings,
    mutation is explicit state passing in a state-and-exception monad, and a
    node's hooks are programs over the methods of the view. *)

From Stdlib Require Import ZArith.
From stdpp Require Import gmap strings list fin_maps.

Set Warnings "-register-all".

(** ** Values, exceptions and outcomes *)

(** Python values that flow through hyperparameters, auxiliary data and hook
    results.  [VNone] is Python's [None]. *)
Inductive value : Type :=
| VNone
| VBool (b : bool)
| VInt (z : Z)
| VStr (s : string)
| VSeq (items : list value).

Inductive exn : Type :=
| AssertionError
| KeyError (key : string)
| ValueError (msg : string)
| TypeError
| AttributeError (attr : string)
| MissingHyperparameter (hyperparameter_keys : list string)
| Exception (msg : string).

Inductive outcome (A : Type) : Type :=
| Ok (a : A)
| Raise (e : exn).
Arguments Ok {A} a.
Arguments Raise {A} e.

(** ** The state-and-exception monad

    A Python method that mutates its receiver and may raise is a function from
    the state before the call to the state after it and an outcome; the state
    reached when an exception escapes is kept, as it is in Python. *)
Definition M (S A : Type) : Type := S -> S * outcome A.

Definition ret {S A} (a : A) : M S A := fun s => (s, Ok a).
Definition raise {S A} (e : exn) : M S A := fun s => (s, Raise e).
Definition bind {S A B} (m : M S A) (f : A -> M S B) : M S B :=
  fun s => match m s with
           | (s', Ok a) => f a s'
           | (s', Raise e) => (s', Raise e)
           end.
Definition get {S} : M S S := fun s => (s, Ok s).
Definition modify {S} (f : S -> S) : M S unit := fun s => (f s, Ok tt).
Definition assert {S} (b : bool) : M S unit :=
  if b then ret tt else raise AssertionError.

Declare Scope py_scope.
Delimit Scope py_scope with py.
Notation "x <- m ;; k" := (bind m (fun x => k))
  (at level 100, m at next level, right associativity) : py_scope.
Notation "m ;;; k" := (bind m (fun _ => k))
  (at level 100, right associativity) : py_scope.
Open Scope py_scope.

(** [for x in l: body x] *)
Fixpoint for_each {S A} (l : list A) (body : A -> M S unit) : M S unit :=
  match l with
  | [] => ret tt
  | x :: l' => body x ;;; for_each l' body
  end.

(** [[f x for x in l]], with the effects of [f] in list order *)
Fixpoint collect {S A B} (l : list A) (f : A -> M S B) : M S (list B) :=
  match l with
  | [] => ret []
  | x :: l' => y <- f x ;; ys <- collect l' f ;; ret (y :: ys)
  end.

(** ** Data model *)

(** Modelled from the spec: [VariableWrapper] (treeano/core/variable.py is not
    part of the sources at hand).  A Variable is a named output owned by the
    node that created it; its composite name is [node_name:local_name] and the
    keyword arguments of its creation are kept as given. *)
Record VariableWrapper : Type := {
  vw_name : string;
  vw_relative_network : string;
  vw_kwargs : list (string * value);
}.

Definition vw_attr (attr : string) (v : VariableWrapper) : value :=
  match List.find (fun kv => String.eqb (fst kv) attr) (vw_kwargs v) with
  | Some kv => snd kv
  | None => VNone
  end.

(** The per-node record of [Network.node_state]: a dictionary with the keys
    [current_variables], [original_variables], [additional_data],
    [set_hyperparameters] and, once [store_inputs] ran, [inputs]. *)
Record NodeState : Type := {
  current_variables : gmap string VariableWrapper;
  original_variables : gmap string VariableWrapper;
  additional_data : gmap string value;
  set_hyperparameters : gmap string (gmap string value);
  inputs : option (gmap string VariableWrapper);
}.

Definition empty_node_state : NodeState :=
  {| current_variables := ∅; original_variables := ∅; additional_data := ∅;
     set_hyperparameters := ∅; inputs := None |}.

(** A keyed dependency edge of the computation graph. *)
Record Dependency : Type := {
  dep_from : string;
  dep_to : string;
  dep_from_key : string;
  dep_to_key : string;
}.

(** The methods of [RelativeNetwork] a hook may call, indexed by the type of
    what the call returns. *)
Inductive call : Type -> Type :=
| StoreInputs (ins : gmap string VariableWrapper) : call unit
| SetData (key : string) (v : value) : call unit
| GetData (key : string) : call value
| GetVariable (variable_name : string) : call VariableWrapper
| SetHyperparameter (node_name key : string) (v : value) : call unit
| ForwardHyperparameter (node_name key : string)
    (hyperparameter_keys : list string) (default_value : option value) : call unit
| FindHyperparameter (hyperparameter_keys : list string)
    (default_value : option value) : call value
| FindHyperparameters (hyperparameter_keys : list string)
    (default_value : option value) : call (list value)
| CreateVariable (local_name : string) (kwargs : list (string * value))
    : call VariableWrapper
| CopyVariable (local_name : string) (previous_variable : VariableWrapper)
    (tags : value) : call VariableWrapper
| ReplaceVariable (local_name : string) (new_variable : VariableWrapper)
    : call VariableWrapper
| ForwardInputTo (node_name previous_to_key to_key : string)
    (ignore_no_input : bool) : call unit
| TakeOutputFrom (node_name from_key to_key : string) : call unit
| ForwardOutputTo (node_name from_key to_key : string) : call unit
| AddDependency (from_name to_name from_key to_key : string) : call unit
| RemoveDependency (from_name to_name : string) : call unit
| GetAllInputEdges : call (gmap string string)
| SetUpdateDelta (variable_name : string) (expr : value) : call unit.

(** A hook of a node is a program over the view it is handed: it returns,
    raises, or calls a method of the view ([on = None]) or of the view of
    another node ([on = Some n], Python's [network[n]]) and goes on with the
    outcome of the call, which it may handle or re-raise. *)
Inductive hook (R : Type) : Type :=
| Done (r : R)
| Throw (e : exn)
| Call (A : Type) (on : option string) (c : call A) (k : outcome A -> hook R).
Arguments Done {R} r.
Arguments Throw {R} e.
Arguments Call {R A} on c k.

(** A call whose exception the hook lets through. *)
Definition call_ {R A} (on : option string) (c : call A) (k : A -> hook R)
  : hook R :=
  Call on c (fun o => match o with Ok a => k a | Raise e => Throw e end).

(** Modelled from the spec: the node contract of section 6 (treeano/core's
    node module is not part of the sources at hand).  [get_hyperparameter]
    answers [None] where the Python method raises [MissingHyperparameter]. *)
Inductive Node : Type := mkNode {
  name : string;
  architecture_children : list Node;
  get_hyperparameter : string -> option value;
  get_input_keys : hook (list string);
  init_long_range_dependencies : hook value;
  init_state : hook value;
  compute_output : list VariableWrapper -> hook value;
  mutate_update_deltas : hook value;
}.

(** Modelled from the spec: [TreeanoGraph] (treeano/core/graph.py is not part
    of the sources at hand): the architecture tree below the root node, the
    dependency edges and the frozen/unfrozen flag. *)
Record TreeanoGraph : Type := {
  is_mutable : bool;
  graph_root : Node;
  dependencies : list Dependency;
}.

(** Modelled from the spec: [UpdateDeltas] (treeano/core/update_deltas.py is
    not part of the sources at hand): a map from a shared variable, by name,
    to its update expression. *)
Record UpdateDeltas : Type := { deltas : gmap string value }.

(** The attributes of a [Network]; [graph] is absent until [build] sets it. *)
Record Network : Type := {
  root_node : Node;
  node_state : gmap string NodeState;
  update_deltas : UpdateDeltas;
  override_hyperparameters : gmap string value;
  default_hyperparameters : gmap string value;
  graph : option TreeanoGraph;
}.

Definition set_graph (g : option TreeanoGraph) (net : Network) : Network :=
  {| root_node := root_node net; node_state := node_state net;
     update_deltas := update_deltas net;
     override_hyperparameters := override_hyperparameters net;
     default_hyperparameters := default_hyperparameters net;
     graph := g |}.

Definition set_node_state (ns : gmap string NodeState) (net : Network)
  : Network :=
  {| root_node := root_node net; node_state := ns;
     update_deltas := update_deltas net;
     override_hyperparameters := override_hyperparameters net;
     default_hyperparameters := default_hyperparameters net;
     graph := graph net |}.

Definition set_update_deltas (u : UpdateDeltas) (net : Network) : Network :=
  {| root_node := root_node net; node_state := node_state net;
     update_deltas := u;
     override_hyperparameters := override_hyperparameters net;
     default_hyperparameters := default_hyperparameters net;
     graph := graph net |}.

(** [Network.__init__] *)
Definition Network_init (root : Node)
    (override_hyperparameters default_hyperparameters
       : option (gmap string value)) : Network :=
  let override_hyperparameters :=
    match override_hyperparameters with
    | None => ∅
    | Some d => d
    end in
  let default_hyperparameters :=
    match default_hyperparameters with
    | None => {[ "batch_axis" := VInt 0 ]}
    | Some d => d
    end in
  {| root_node := root;
     node_state := ∅;
     update_deltas := {| deltas := ∅ |};
     override_hyperparameters := override_hyperparameters;
     default_hyperparameters := default_hyperparameters;
     graph := None |}.

(** [Network.is_built]: [hasattr(self, "graph")] *)
Definition is_built (net : Network) : bool :=
  match graph net with Some _ => true | None => false end.

(** ** The graph

    Modelled from the spec (sections 3 and 4.1), as [TreeanoGraph] above. *)
Module Graph.

(** [TreeanoGraph(root_node)]: the tree of the root's declared children, no
    dependency edge yet, unfrozen. *)
Definition init (root : Node) : TreeanoGraph :=
  {| is_mutable := true; graph_root := root; dependencies := [] |}.

(** All nodes of the architecture tree below [n], parents before children. *)
Fixpoint subtree (n : Node) : list Node :=
  n :: flat_map subtree (architecture_children n).

Definition architectural_tree_nodes_root_to_leaves (g : TreeanoGraph)
  : list Node :=
  subtree (graph_root g).

Definition name_to_node (g : TreeanoGraph) (node_name : string)
  : option Node :=
  List.find (fun n => String.eqb (name n) node_name)
            (architectural_tree_nodes_root_to_leaves g).

(** The ancestors of the node called [target] in the tree below [n], the
    parent first and the root last; [above] are the ancestors of [n]. *)
Fixpoint ancestors_below (target : string) (above : list Node) (n : Node)
  : option (list Node) :=
  if String.eqb (name n) target then Some above
  else
    (fix first_of (cs : list Node) : option (list Node) :=
       match cs with
       | [] => None
       | c :: cs' =>
           match ancestors_below target (n :: above) c with
           | Some found => Some found
           | None => first_of cs'
           end
       end) (architecture_children n).

Definition architecture_ancestors (g : TreeanoGraph) (node_name : string)
  : list Node :=
  default [] (ancestors_below node_name [] (graph_root g)).

(** [input_edge_for_node(name, to_key)]: the [(from_name, from_key)] that
    supplies the input port, or none if unconnected. *)
Definition input_edge_for_node (g : TreeanoGraph) (node_name to_key : string)
  : option (string * string) :=
  match List.find (fun e => String.eqb (dep_to e) node_name
                            && String.eqb (dep_to_key e) to_key)
                  (dependencies g) with
  | Some e => Some (dep_from e, dep_from_key e)
  | None => None
  end.

Definition all_input_edges_for_node (g : TreeanoGraph) (node_name : string)
  : list Dependency :=
  List.filter (fun e => String.eqb (dep_to e) node_name) (dependencies g).

(** Is [dst] reachable from [src] along at most [fuel] dependency edges? *)
Fixpoint reaches (fuel : nat) (edges : list Dependency) (src dst : string)
  : bool :=
  String.eqb src dst
  || match fuel with
     | O => false
     | S fuel' =>
         existsb (fun e => String.eqb (dep_from e) src
                           && reaches fuel' edges (dep_to e) dst) edges
     end.

Definition would_cycle (g : TreeanoGraph) (from_name to_name : string)
  : bool :=
  reaches (length (dependencies g)) (dependencies g) to_name from_name.

(** [add_dependency]: fails if the graph is frozen or if adding the edge
    would create a cycle. *)
Definition add_dependency (from_name to_name from_key to_key : string)
  : M TreeanoGraph unit :=
  fun g =>
    if negb (is_mutable g) then
      (g, Raise (Exception "GraphMutationAfterFreeze"))
    else if would_cycle g from_name to_name then
      (g, Raise (Exception "CycleDetected"))
    else
      ({| is_mutable := is_mutable g; graph_root := graph_root g;
          dependencies :=
            dependencies g ++
            [{| dep_from := from_name; dep_to := to_name;
                dep_from_key := from_key; dep_to_key := to_key |}] |},
       Ok tt).

(** [remove_dependency]: fails if frozen. *)
Definition remove_dependency (from_name to_name : string)
  : M TreeanoGraph unit :=
  fun g =>
    if negb (is_mutable g) then
      (g, Raise (Exception "GraphMutationAfterFreeze"))
    else
      ({| is_mutable := is_mutable g; graph_root := graph_root g;
          dependencies :=
            List.filter (fun e => negb (String.eqb (dep_from e) from_name
                                        && String.eqb (dep_to e) to_name))
                        (dependencies g) |},
       Ok tt).

(** [graph.is_mutable = False] *)
Definition freeze (g : TreeanoGraph) : TreeanoGraph :=
  {| is_mutable := false; graph_root := graph_root g;
     dependencies := dependencies g |}.

Definition mem (x : string) (l : list string) : bool :=
  existsb (String.eqb x) l.

(** Repeatedly take the first remaining node, in declaration order, none of
    whose suppliers remains. *)
Fixpoint topological (fuel : nat) (edges : list Dependency)
    (remaining : list string) : list string :=
  match fuel with
  | O => []
  | S fuel' =>
      match List.find
              (fun n => forallb (fun e => negb (String.eqb (dep_to e) n)
                                          || negb (mem (dep_from e) remaining))
                                edges) remaining with
      | Some n =>
          n :: topological fuel' edges
                 (List.filter (fun m => negb (String.eqb m n)) remaining)
      | None => []
      end
  end.

(** [computation_graph_nodes_topological]: every node after its suppliers,
    ties broken by declaration order. *)
Definition computation_graph_nodes_topological (g : TreeanoGraph)
  : list Node :=
  let names := List.map name (architectural_tree_nodes_root_to_leaves g) in
  omap (name_to_node g)
       (topological (length names) (dependencies g) names).

End Graph.

(** ** The relative network: a view of the network from one node

    The view is identified by its node; [self._state] is the entry of
    [node_state] under the node's name, which nothing rebinds once views
    exist, so reading it through the network at each call is reading the
    dictionary [RelativeNetwork.__init__] captured. *)

Definition has_key {V} (m : gmap string V) (k : string) : bool :=
  match m !! k with Some _ => true | None => false end.

(** [self.graph], through [__getattr__] *)
Definition the_graph : M Network TreeanoGraph :=
  fun net => match graph net with
             | Some g => (net, Ok g)
             | None => (net, Raise (AttributeError "graph"))
             end.

(** A method of the graph, run on [self.graph] in place. *)
Definition on_graph {A} (m : M TreeanoGraph A) : M Network A :=
  fun net => match graph net with
             | Some g => let '(g', o) := m g in (set_graph (Some g') net, o)
             | None => (net, Raise (AttributeError "graph"))
             end.

(** [self._state] *)
Definition state_of (self : Node) : M Network NodeState :=
  fun net => match node_state net !! name self with
             | Some st => (net, Ok st)
             | None => (net, Raise (KeyError (name self)))
             end.

Definition put_state (self : Node) (st : NodeState) : M Network unit :=
  modify (fun net => set_node_state (<[name self := st]> (node_state net)) net).

(** [RelativeNetwork.__init__]: looks the node's state up, and so needs it. *)
Definition RelativeNetwork_init (node : Node) : M Network Node :=
  state_of node ;;; ret node.

Definition store_inputs (self : Node) (ins : gmap string VariableWrapper)
  : M Network unit :=
  st <- state_of self ;;
  put_state self
    {| current_variables := current_variables st;
       original_variables := original_variables st;
       additional_data := additional_data st;
       set_hyperparameters := set_hyperparameters st;
       inputs := Some ins |}.

Definition set_data (self : Node) (key : string) (v : value)
  : M Network unit :=
  st <- state_of self ;;
  assert (negb (has_key (additional_data st) key)) ;;;
  assert (negb (has_key (current_variables st) key)) ;;;
  put_state self
    {| current_variables := current_variables st;
       original_variables := original_variables st;
       additional_data := <[key := v]> (additional_data st);
       set_hyperparameters := set_hyperparameters st;
       inputs := inputs st |}.

Definition get_data (self : Node) (key : string) : M Network value :=
  st <- state_of self ;;
  match additional_data st !! key with
  | Some v => ret v
  | None => raise (KeyError key)
  end.

Definition get_variable (self : Node) (variable_name : string)
  : M Network VariableWrapper :=
  st <- state_of self ;;
  match current_variables st !! variable_name with
  | Some v => ret v
  | None => raise (KeyError variable_name)
  end.

Definition set_hyperparameter (self : Node) (node_name key : string)
    (v : value) : M Network unit :=
  st <- state_of self ;;
  let hps := set_hyperparameters st in
  let hps := if has_key hps node_name then hps else <[node_name := ∅]> hps in
  put_state self
    {| current_variables := current_variables st;
       original_variables := original_variables st;
       additional_data := additional_data st;
       set_hyperparameters :=
         <[node_name := <[key := v]> (default ∅ (hps !! node_name))]> hps;
       inputs := inputs st |}.

(** *** Hyperparameter resolution

    [find_hyperparameters] is a generator.  What a consumer can see of a
    generator run to its end is the values it yields, in order, and the
    exception that ended it, if one did. *)
Record generator : Type := {
  yielded : list value;
  stopped : option exn;
}.

Definition yield_all (vs : list value) (rest : generator) : generator :=
  {| yielded := vs ++ yielded rest; stopped := stopped rest |}.

Definition exhausted : generator := {| yielded := []; stopped := None |}.
Definition broken (e : exn) : generator :=
  {| yielded := []; stopped := Some e |}.

(** [for hyperparameter_key in hyperparameter_keys:
       if hyperparameter_key in d: yield d[hyperparameter_key]] *)
Fixpoint yield_present (d : gmap string value)
    (hyperparameter_keys : list string) : list value :=
  match hyperparameter_keys with
  | [] => []
  | hyperparameter_key :: keys =>
      match d !! hyperparameter_key with
      | Some v => v :: yield_present d keys
      | None => yield_present d keys
      end
  end.

(** [for ancestor_name in done_ancestors_names:
       try: yield node_hps[ancestor_name][hyperparameter_key]
       except KeyError: pass] *)
Fixpoint yield_set (node_hps : gmap string (gmap string value))
    (hyperparameter_key : string) (done_ancestors_names : list string)
  : list value :=
  match done_ancestors_names with
  | [] => []
  | ancestor_name :: names =>
      match node_hps !! ancestor_name with
      | Some hps =>
          match hps !! hyperparameter_key with
          | Some v => v :: yield_set node_hps hyperparameter_key names
          | None => yield_set node_hps hyperparameter_key names
          end
      | None => yield_set node_hps hyperparameter_key names
      end
  end.

(** The body of the loop over the chain, for one [node]: for each key, the
    values set for the nodes done so far, then the node's own value. *)
Fixpoint yield_node (node : Node) (node_hps : gmap string (gmap string value))
    (done_ancestors_names : list string) (hyperparameter_keys : list string)
  : list value :=
  match hyperparameter_keys with
  | [] => []
  | hyperparameter_key :: keys =>
      yield_set node_hps hyperparameter_key done_ancestors_names
      ++ match get_hyperparameter node hyperparameter_key with
         | Some v => [v]
         | None => []
         end
      ++ yield_node node node_hps done_ancestors_names keys
  end.

(** [for node in [self._node] + ancestors: ...] *)
Fixpoint yield_chain (net : Network) (hyperparameter_keys : list string)
    (done_ancestors_names : list string) (chain : list Node)
    (then_ : generator) : generator :=
  match chain with
  | [] => then_
  | node :: chain' =>
      let done_ancestors_names := done_ancestors_names ++ [name node] in
      match node_state net !! name node with
      | None => broken (KeyError (name node))
      | Some st =>
          yield_all
            (yield_node node (set_hyperparameters st) done_ancestors_names
                        hyperparameter_keys)
            (yield_chain net hyperparameter_keys done_ancestors_names chain'
                         then_)
      end
  end.

Definition find_hyperparameters (self : Node)
    (hyperparameter_keys : list string) (default_value : option value)
    (net : Network) : generator :=
  yield_all
    (yield_present (override_hyperparameters net) hyperparameter_keys)
    match graph net with
    | None => broken (AttributeError "graph")
    | Some g =>
        let ancestors := Graph.architecture_ancestors g (name self) in
        yield_chain net hyperparameter_keys [] (self :: ancestors)
          (yield_all
             match default_value with
             | Some v => [v]
             | None => []
             end
             (yield_all
                (yield_present (default_hyperparameters net)
                               hyperparameter_keys)
                exhausted))
    end.

(** [for val in self.find_hyperparameters(...): return val
     else: raise MissingHyperparameter(...)]: the first value the generator
    yields; the exception that stops it before any; or the error. *)
Definition find_hyperparameter (self : Node)
    (hyperparameter_keys : list string) (default_value : option value)
  : M Network value :=
  fun net =>
    let gen := find_hyperparameters self hyperparameter_keys default_value net in
    match yielded gen with
    | val :: _ => (net, Ok val)
    | [] =>
        match stopped gen with
        | Some e => (net, Raise e)
        | None => (net, Raise (MissingHyperparameter hyperparameter_keys))
        end
    end.

(** A consumer that runs the generator to its end, as
    [list(network.find_hyperparameters(...))] does. *)
Definition all_hyperparameters (self : Node)
    (hyperparameter_keys : list string) (default_value : option value)
  : M Network (list value) :=
  fun net =>
    let gen := find_hyperparameters self hyperparameter_keys default_value net in
    match stopped gen with
    | Some e => (net, Raise e)
    | None => (net, Ok (yielded gen))
    end.

Definition forward_hyperparameter (self : Node) (node_name key : string)
    (hyperparameter_keys : list string) (default_value : option value)
  : M Network unit :=
  v <- find_hyperparameter self hyperparameter_keys default_value ;;
  set_hyperparameter self node_name key v.

(** *** Variables *)

Definition create_variable (self : Node) (local_name : string)
    (kwargs : list (string * value)) : M Network VariableWrapper :=
  st <- state_of self ;;
  assert (negb (has_key (current_variables st) local_name)) ;;;
  assert (negb (has_key (original_variables st) local_name)) ;;;
  let new_name := name self +:+ ":" +:+ local_name in
  let variable :=
    {| vw_name := new_name; vw_relative_network := name self;
       vw_kwargs := kwargs |} in
  put_state self
    {| current_variables := <[local_name := variable]> (current_variables st);
       original_variables := <[local_name := variable]> (original_variables st);
       additional_data := additional_data st;
       set_hyperparameters := set_hyperparameters st;
       inputs := inputs st |} ;;;
  ret variable.

Definition copy_variable (self : Node) (local_name : string)
    (previous_variable : VariableWrapper) (tags : value)
  : M Network VariableWrapper :=
  create_variable self local_name
    [("variable", vw_attr "variable" previous_variable);
     ("shape", vw_attr "shape" previous_variable);
     ("tags", tags)].

Definition replace_variable (self : Node) (local_name : string)
    (new_variable : VariableWrapper) : M Network VariableWrapper :=
  st <- state_of self ;;
  assert (has_key (original_variables st) local_name) ;;;
  put_state self
    {| current_variables :=
         <[local_name := new_variable]> (current_variables st);
       original_variables := original_variables st;
       additional_data := additional_data st;
       set_hyperparameters := set_hyperparameters st;
       inputs := inputs st |} ;;;
  ret new_variable.

(** *** Dependency editing *)

Definition add_dependency (self : Node)
    (from_name to_name from_key to_key : string) : M Network unit :=
  on_graph (Graph.add_dependency from_name to_name from_key to_key).

Definition remove_dependency (self : Node) (from_name to_name : string)
  : M Network unit :=
  on_graph (Graph.remove_dependency from_name to_name).

Definition forward_input_to (self : Node)
    (node_name previous_to_key to_key : string) (ignore_no_input : bool)
  : M Network unit :=
  g <- the_graph ;;
  match Graph.input_edge_for_node g (name self) previous_to_key with
  | None =>
      if negb ignore_no_input then
        raise (ValueError ("forward_input_to called on node without input key: "
                           +:+ previous_to_key))
      else ret tt
  | Some (name_from, from_key) =>
      on_graph (Graph.add_dependency name_from node_name from_key to_key)
  end.

(** [forward_input_to] with the arguments the caller leaves out at the
    defaults of its signature: [previous_to_key="default"],
    [to_key="default"], [ignore_no_input=True]. *)
Definition forward_input_to_kw (self : Node) (node_name : string)
    (previous_to_key to_key : option string) (ignore_no_input : option bool)
  : M Network unit :=
  forward_input_to self node_name
    (default "default" previous_to_key) (default "default" to_key)
    (default true ignore_no_input).

Definition take_output_from (self : Node) (node_name from_key to_key : string)
  : M Network unit :=
  add_dependency self node_name (name self) from_key to_key.

Definition forward_output_to (self : Node) (node_name from_key to_key : string)
  : M Network unit :=
  add_dependency self (name self) node_name from_key to_key.

Definition get_all_input_edges (self : Node) : M Network (gmap string string) :=
  g <- the_graph ;;
  ret (foldl (fun edges e => <[dep_to_key e := dep_from e]> edges) ∅
             (Graph.all_input_edges_for_node g (name self))).

(** Modelled from the spec: an update rule written into the network's
    [update_deltas]; a later rule for the same variable replaces an earlier
    one. *)
Definition set_update_delta (variable_name : string) (expr : value)
  : M Network unit :=
  modify (fun net =>
    set_update_deltas
      {| deltas := <[variable_name := expr]> (deltas (update_deltas net)) |}
      net).

(** ** Running hooks

    [build] and [relative_network] call each other: [relative_network] starts
    with [self.build()], and [build] hands every hook a view made by
    [relative_network].  The source cuts the recursion by assigning
    [self.graph] before it makes the first view, so that the inner [build()]
    finds [is_built] and returns.  [build_reentered] is that inner call; a
    hook never runs on a network without a graph (see
    [run_hook_keeps_built]), where it stops the run. *)
Definition build_reentered : M Network unit :=
  fun net => if is_built net then (net, Ok tt)
             else (net, Raise (Exception "build re-entered"))%string.

(** [Network.relative_network], called while building *)
Definition relative_network_built (node : Node) : M Network Node :=
  build_reentered ;;; RelativeNetwork_init node.

(** [Network.__getitem__], called while building *)
Definition getitem_built (node_name : string) : M Network Node :=
  build_reentered ;;;
  g <- the_graph ;;
  match Graph.name_to_node g node_name with
  | Some node => relative_network_built node
  | None => raise (KeyError node_name)
  end.

(** The method of the view [self] that a [call] stands for. *)
Definition exec_call (self : Node) {A} (c : call A) : M Network A :=
  match c in call T return M Network T with
  | StoreInputs ins => store_inputs self ins
  | SetData key v => set_data self key v
  | GetData key => get_data self key
  | GetVariable variable_name => get_variable self variable_name
  | SetHyperparameter node_name key v =>
      set_hyperparameter self node_name key v
  | ForwardHyperparameter node_name key keys default_value =>
      forward_hyperparameter self node_name key keys default_value
  | FindHyperparameter keys default_value =>
      find_hyperparameter self keys default_value
  | FindHyperparameters keys default_value =>
      all_hyperparameters self keys default_value
  | CreateVariable local_name kwargs => create_variable self local_name kwargs
  | CopyVariable local_name previous_variable tags =>
      copy_variable self local_name previous_variable tags
  | ReplaceVariable local_name new_variable =>
      replace_variable self local_name new_variable
  | ForwardInputTo node_name previous_to_key to_key ignore_no_input =>
      forward_input_to self node_name previous_to_key to_key ignore_no_input
  | TakeOutputFrom node_name from_key to_key =>
      take_output_from self node_name from_key to_key
  | ForwardOutputTo node_name from_key to_key =>
      forward_output_to self node_name from_key to_key
  | AddDependency from_name to_name from_key to_key =>
      add_dependency self from_name to_name from_key to_key
  | RemoveDependency from_name to_name =>
      remove_dependency self from_name to_name
  | GetAllInputEdges => get_all_input_edges self
  | SetUpdateDelta variable_name expr => set_update_delta variable_name expr
  end.

(** The view a call is made on: [self], or [self[node_name]]. *)
Definition view_of (self : Node) (on : option string) : M Network Node :=
  match on with
  | None => ret self
  | Some node_name => getitem_built node_name
  end.

Fixpoint run_hook {R} (self : Node) (h : hook R) : M Network R :=
  match h with
  | Done r => ret r
  | Throw e => raise e
  | Call on c k =>
      fun net =>
        let '(net', o) :=
          (target <- view_of self on ;; exec_call target c) net in
        run_hook self (k o) net'
  end.

(** ** Building the network *)

Inductive hook_name : Type :=
| InitLongRangeDependencies
| InitState
| GetInputKeys
| ComputeOutput
| MutateUpdateDeltas.

(** What [build] does with hooks and with the freeze, in order: a hook is
    entered (with the [is_mutable] flag its view shows it at that moment),
    a hook is left (with what it returned or raised), the graph is frozen. *)
Inductive event : Type :=
| Enter (h : hook_name) (node : string) (graph_is_mutable : bool)
| Exit (h : hook_name) (node : string) (result : outcome value)
| Freeze.

(** A network together with the record of the hooks run on it. *)
Record Run : Type := {
  net : Network;
  log : list event;
}.

Definition in_net {A} (m : M Network A) : M Run A :=
  fun w => let '(n, o) := m (net w) in ({| net := n; log := log w |}, o).

Definition emit (e : event) : M Run unit :=
  modify (fun w => {| net := net w; log := log w ++ [e] |}).

Definition shows_mutable (n : Network) : bool :=
  match graph n with
  | Some g => is_mutable g
  | None => true
  end.

Definition map_outcome {A B} (f : A -> B) (o : outcome A) : outcome B :=
  match o with
  | Ok a => Ok (f a)
  | Raise e => Raise e
  end.

(** [node.<hook>(rel_network, ...)] *)
Definition call_hook {R} (h : hook_name) (as_value : R -> value)
    (rel_network : Node) (body : hook R) : M Run R :=
  fun w =>
    let node := name rel_network in
    let entered := log w ++ [Enter h node (shows_mutable (net w))] in
    let '(n, o) := run_hook rel_network body (net w) in
    ({| net := n;
        log := entered ++ [Exit h node (map_outcome as_value o)] |},
     o).

Definition is_None (v : value) : bool :=
  match v with
  | VNone => true
  | _ => false
  end.

(** [dict(zip(input_keys, inputs))] *)
Definition dict_zip {V} (keys : list string) (vals : list V) : gmap string V :=
  foldl (fun d kv => <[fst kv := snd kv]> d) ∅ (zip keys vals).

(** The body of the output-computation loop for one node. *)
Definition compute_node (node : Node) : M Run unit :=
  rel_network <- in_net (relative_network_built node) ;;
  input_keys <- call_hook GetInputKeys (fun ks => VSeq (VStr <$> ks))
                  rel_network (get_input_keys node) ;;
  ins <- collect input_keys (fun input_key =>
           in_net (g <- the_graph ;;
                   match Graph.input_edge_for_node g (name node) input_key with
                   | None => raise TypeError
                   | Some (node_name, from_key) =>
                       other <- getitem_built node_name ;;
                       get_variable other from_key
                   end)) ;;
  in_net (store_inputs rel_network (dict_zip input_keys ins)) ;;;
  output_res <- call_hook ComputeOutput id rel_network
                  (compute_output node ins) ;;
  assert (is_None output_res).

(** The phases of [Network.build], in the order of the source. *)

(** [self.graph = TreeanoGraph(self.root_node)] and the empty state of every
    node *)
Definition allocate_states : M Run unit :=
  in_net (modify (fun n => set_graph (Some (Graph.init (root_node n))) n)) ;;;
  g <- in_net the_graph ;;
  for_each (Graph.architectural_tree_nodes_root_to_leaves g) (fun node =>
    in_net (modify (fun n =>
      set_node_state (<[name node := empty_node_state]> (node_state n)) n))).

(** [node.<hook>(self.relative_network(node))] for a hook without further
    arguments, its result dropped *)
Definition visit (h : hook_name) (body : Node -> hook value) (node : Node)
  : M Run unit :=
  rel_network <- in_net (relative_network_built node) ;;
  call_hook h id rel_network (body node) ;;; ret tt.

Definition init_dependencies_phase : M Run unit :=
  g <- in_net the_graph ;;
  for_each (Graph.architectural_tree_nodes_root_to_leaves g)
    (visit InitLongRangeDependencies init_long_range_dependencies).

Definition init_state_phase : M Run unit :=
  g <- in_net the_graph ;;
  for_each (Graph.architectural_tree_nodes_root_to_leaves g)
    (visit InitState init_state).

(** [self.graph.is_mutable = False] *)
Definition freeze_phase : M Run unit :=
  in_net (on_graph (modify Graph.freeze)) ;;;
  emit Freeze.

Definition output_phase : M Run unit :=
  g <- in_net the_graph ;;
  for_each (Graph.computation_graph_nodes_topological g) compute_node.

Definition update_phase : M Run unit :=
  g <- in_net the_graph ;;
  for_each (Graph.architectural_tree_nodes_root_to_leaves g)
    (visit MutateUpdateDeltas mutate_update_deltas).

(** [Network.build] past its first test, on a network not built yet. *)
Definition build_body : M Run unit :=
  allocate_states ;;;
  init_dependencies_phase ;;;
  init_state_phase ;;;
  freeze_phase ;;;
  output_phase ;;;
  update_phase.

(** [Network.build] *)
Definition build : M Run unit :=
  fun w => if is_built (net w) then (w, Ok tt) else build_body w.

(** [Network.relative_network] *)
Definition relative_network (node : Node) : M Run Node :=
  build ;;; in_net (RelativeNetwork_init node).

(** [Network.__getitem__] *)
Definition getitem (node_name : string) : M Run Node :=
  build ;;;
  g <- in_net the_graph ;;
  match Graph.name_to_node g node_name with
  | Some node => relative_network node
  | None => raise (KeyError node_name)
  end.

(** ** Resolution as a tiered search

    The search as section 4.3 of the specification words it: four tiers, tried
    in order, each a search that stops at its first match.  It is compared
    with the generator of the source below. *)

(** "for each candidate key (in order), if present in the map, return it" *)
Fixpoint first_present (d : gmap string value) (keys : list string)
  : option value :=
  match keys with
  | [] => None
  | key :: keys' =>
      match d !! key with
      | Some v => Some v
      | None => first_present d keys'
      end
  end.

(** "for each node B in the visited-so-far prefix (closest first) ...
    return the first found", among the values [node_hps] holds for B *)
Fixpoint first_set (node_hps : gmap string (gmap string value))
    (key : string) (prefix : list string) : option value :=
  match prefix with
  | [] => None
  | b :: prefix' =>
      match node_hps !! b ≫= (.!! key) with
      | Some v => Some v
      | None => first_set node_hps key prefix'
      end
  end.

(** "for each candidate key (in order): a. ... b. if none found, ask node A
    for a self-provided value for this key" *)
Fixpoint first_at_node (a : Node) (node_hps : gmap string (gmap string value))
    (prefix : list string) (keys : list string) : option value :=
  match keys with
  | [] => None
  | key :: keys' =>
      match first_set node_hps key prefix with
      | Some v => Some v
      | None =>
          match get_hyperparameter a key with
          | Some v => Some v
          | None => first_at_node a node_hps prefix keys'
          end
      end
  end.

(** What the chain node [a] has set, keyed by the name of the node each value
    is for: the [set_hyperparameters] of the state of [a]. *)
Definition pushed_by (n : Network) (a : Node)
  : gmap string (gmap string value) :=
  match node_state n !! name a with
  | Some st => set_hyperparameters st
  | None => ∅
  end.

(** "walk the chain; maintain the growing prefix of nodes visited so far" *)
Fixpoint hierarchy_tier (n : Network) (keys : list string)
    (prefix : list string) (chain : list Node) : option value :=
  match chain with
  | [] => None
  | a :: chain' =>
      let prefix := prefix ++ [name a] in
      match first_at_node a (pushed_by n a) prefix keys with
      | Some v => Some v
      | None => hierarchy_tier n keys prefix chain'
      end
  end.

(** The chain [this node, parent, ..., root] of a view. *)
Definition chain_of (g : TreeanoGraph) (self : Node) : list Node :=
  self :: Graph.architecture_ancestors g (name self).

Definition resolve (n : Network) (g : TreeanoGraph) (self : Node)
    (keys : list string) (default_value : option value) : outcome value :=
  match first_present (override_hyperparameters n) keys with
  | Some v => Ok v
  | None =>
      match hierarchy_tier n keys [] (chain_of g self) with
      | Some v => Ok v
      | None =>
          match default_value with
          | Some v => Ok v
          | None =>
              match first_present (default_hyperparameters n) keys with
              | Some v => Ok v
              | None => Raise (MissingHyperparameter keys)
              end
          end
      end
  end.

(** Every node of the chain has its entry in the node state store, as every
    node of the tree has once [build] has allocated them. *)
Definition chain_has_state (n : Network) (chain : list Node) : Prop :=
  Forall (fun a => is_Some (node_state n !! name a)) chain.

(** ** Shapes of composite nodes (treeano/nodes/composite.py)

    A shape is the tuple of the sizes of the dimensions; a size is an
    integer, or [None] where it is not known. *)
Inductive dim : Type :=
| DNone
| DInt (z : Z).

Section flatten.

(** [np.prod], of the numpy library: it returns a size or raises. *)
Variable np_prod : list dim -> outcome dim.

(** [_flatten_1d_or_2d_shape]; the last branch is a bare [raise ValueError] *)
Definition flatten_1d_or_2d_shape (shape : list dim) : outcome (list dim) :=
  if (2 <? length shape)%nat then
    match shape !! 0%nat with
    | Some first =>
        match np_prod (drop 1 shape) with
        | Ok size => Ok [first; size]
        | Raise e => Raise e
        end
    | None => Raise (Exception "IndexError")
    end
  else if (1 <=? length shape)%nat && (length shape <=? 2)%nat then
    Ok shape
  else
    Raise (ValueError "").

End flatten.

(** *** The arithmetic of numpy on sizes

    numpy holds a tuple of Python integers that fit 64 bits as an array of
    int64 and multiplies them in int64: a product that does not fit wraps
    around, silently. *)
Definition in_int64 (z : Z) : Prop := (- 2 ^ 63 <= z < 2 ^ 63)%Z.

Definition wrap64 (z : Z) : Z := ((z + 2 ^ 63) mod 2 ^ 64 - 2 ^ 63)%Z.

Definition int64_product (sizes : list Z) : Z :=
  foldl (fun acc size => wrap64 (acc * size)) 1%Z sizes.

(** The product of the sizes as integers without a bound: the number of
    elements they stand for. *)
Definition exact_product (sizes : list Z) : Z := foldr Z.mul 1%Z sizes.

(** What is assumed of [np.prod]: of two or more integers that fit 64 bits it
    returns the product in int64. *)
Definition multiplies_in_int64 (np_prod : list dim -> outcome dim) : Prop :=
  ∀ sizes, (2 <= length sizes)%nat -> Forall in_int64 sizes ->
           np_prod (DInt <$> sizes) = Ok (DInt (int64_product sizes)).

(** A product function to run the definitions with, for the two or more
    sizes [_flatten_1d_or_2d_shape] passes: the product in int64 of
    integers, and TypeError when one of the sizes is [None], which numpy
    cannot multiply. *)
Fixpoint sizes_of (shape : list dim) : option (list Z) :=
  match shape with
  | [] => Some []
  | DNone :: _ => None
  | DInt z :: shape' => cons z <$> sizes_of shape'
  end.

Definition int64_prod (sizes : list dim) : outcome dim :=
  match sizes_of sizes with
  | Some zs => Ok (DInt (int64_product zs))
  | None => Raise TypeError
  end.

(** ** What building may change

    [evolves n n'] bounds what the methods of a view, and so the hooks, may
    do to a network: the root, the override and default maps stay; a node
    state stays allocated and keeps the entries of its [original_variables];
    the graph keeps its tree and, once frozen, is left exactly as it is. *)
Record evolves (n n' : Network) : Prop := {
  ev_root : root_node n' = root_node n;
  ev_override : override_hyperparameters n' = override_hyperparameters n;
  ev_default : default_hyperparameters n' = default_hyperparameters n;
  ev_states : ∀ m st,
    node_state n !! m = Some st ->
    ∃ st', node_state n' !! m = Some st'
           ∧ original_variables st ⊆ original_variables st';
  ev_graph : ∀ g,
    graph n = Some g ->
    ∃ g', graph n' = Some g'
          ∧ graph_root g' = graph_root g
          ∧ (is_mutable g = false -> g' = g);
}.

(** The exception of an outcome, if any. *)
Definition failure {A} (o : outcome A) : option exn :=
  match o with
  | Ok _ => None
  | Raise e => Some e
  end.

(** A relation between the state before a computation, the state after it and
    the exception it raised that holds of a computation as soon as it holds
    of its steps. *)
Class Composable {S} (R : S -> S -> option exn -> Prop) : Prop := {
  comp_refl : ∀ s o, R s s o;
  comp_trans : ∀ s s1 s2 o, R s s1 None -> R s1 s2 o -> R s s2 o;
}.

Definition obeys {S A} (R : S -> S -> option exn -> Prop) (m : M S A) : Prop :=
  ∀ s, R s (fst (m s)) (failure (snd (m s))).

(** A computation on the network that only lets it evolve. *)
Definition evolving_rel (n n' : Network) (_ : option exn) : Prop :=
  evolves n n'.

(** The current and the original variables of every node go by the same
    names. *)
Definition variables_aligned (n : Network) : Prop :=
  ∀ m st, node_state n !! m = Some st ->
          dom (current_variables st) = dom (original_variables st).

(** A property of the state a computation keeps. *)
Definition keeps {S} (P : S -> Prop) (s s' : S) (_ : option exn) : Prop :=
  P s -> P s'.

Definition run_aligned (w : Run) : Prop := variables_aligned (net w).

(** A hook left by an exception is the last thing that happens, and the
    exception is the one the run ends in. *)
Definition raised_last (w w' : Run) (o : option exn) : Prop :=
  ∃ es, log w' = log w ++ es
        ∧ ∀ i h node e, es !! i = Some (Exit h node (Raise e)) ->
                        S i = length es ∧ o = Some e.

(** The events of one hook. *)
Definition of_hook (h : hook_name) (e : event) : Prop :=
  match e with
  | Enter h' _ _ | Exit h' _ _ => h' = h
  | Freeze => False
  end.

Definition enters_frozen (e : event) : Prop :=
  match e with
  | Enter _ _ graph_is_mutable => graph_is_mutable = false
  | _ => True
  end.

(** The network evolves and the log grows by events of the kind [φ], whose
    hooks are entered on a frozen graph if the graph was frozen before. *)
Definition grows (φ : event -> Prop) (w w' : Run) (_ : option exn) : Prop :=
  evolves (net w) (net w')
  ∧ ∃ es, log w' = log w ++ es
          ∧ Forall φ es
          ∧ (shows_mutable (net w) = false -> Forall enters_frozen es).

(** The events of the output-computation phase. *)
Definition of_output (e : event) : Prop :=
  of_hook GetInputKeys e ∨ of_hook ComputeOutput e.

(** The events of the two initialisation phases, and those of the phases
    that follow the freeze. *)
Definition of_init (e : event) : Prop :=
  of_hook InitLongRangeDependencies e ∨ of_hook InitState e.

Definition of_later_phase (e : event) : Prop :=
  of_output e ∨ of_hook MutateUpdateDeltas e.

(** [Network.build] after the graph and the node states are allocated. *)
Definition build_phases : M Run unit :=
  init_dependencies_phase ;;;
  init_state_phase ;;;
  freeze_phase ;;;
  output_phase ;;;
  update_phase.

(** The hooks that have run, by the events that leave them. *)
Definition hooks_run (es : list event) : list (hook_name * string) :=
  omap (fun e => match e with
                 | Exit h node _ => Some (h, node)
                 | _ => None
                 end) es.

(** An output-computation hook that returned something else than [None]. *)
Definition returned_a_value (e : event) : bool :=
  match e with
  | Exit ComputeOutput _ (Ok v) => negb (is_None v)
  | _ => false
  end.

(** Such a return is the last thing that happens, and the run ends in the
    failed assertion. *)
Definition fatal_return (w w' : Run) (o : option exn) : Prop :=
  ∃ es, log w' = log w ++ es
        ∧ ∀ i e, es !! i = Some e -> returned_a_value e = true ->
                 S i = length es ∧ o = Some AssertionError.

(** ** A small network

    A model node holding a sequential node with an input node and a linear
    mapping; the containers wire the dependencies and push hyperparameters
    down in [init_state]. *)

Definition no_hyperparameter : string -> option value := fun _ => None.

Definition returning_none {A} : A -> hook value := fun _ => Done VNone.

Definition input_node : Node :=
  {| name := "i";
     architecture_children := [];
     get_hyperparameter := no_hyperparameter;
     get_input_keys := Done [];
     init_long_range_dependencies := Done VNone;
     init_state := Done VNone;
     compute_output := fun _ =>
       call_ None (CreateVariable "default" [("shape", VSeq [VInt 10])])
         returning_none;
     mutate_update_deltas := Done VNone |}.

Definition linear_mapping_node : Node :=
  {| name := "lm";
     architecture_children := [];
     get_hyperparameter := no_hyperparameter;
     get_input_keys := Done ["default"];
     init_long_range_dependencies := Done VNone;
     init_state := Done VNone;
     compute_output := fun _ =>
       call_ None (FindHyperparameter ["num_units"; "output_dim"] None)
         (fun dim =>
            call_ None (CreateVariable "weight" [("output_dim", dim)])
              (fun _ => call_ None (CreateVariable "default" []) returning_none));
     mutate_update_deltas := Done VNone |}.

Definition sequential_node : Node :=
  {| name := "seq";
     architecture_children := [input_node; linear_mapping_node];
     get_hyperparameter := no_hyperparameter;
     get_input_keys := Done ["default"];
     init_long_range_dependencies := Done VNone;
     init_state :=
       call_ None (ForwardInputTo "i" "default" "default" true) (fun _ =>
       call_ None (AddDependency "i" "lm" "default" "default") (fun _ =>
       call_ None (TakeOutputFrom "lm" "default" "default") (fun _ =>
       call_ None (SetHyperparameter "lm" "output_dim" (VInt 7))
         returning_none)));
     compute_output := fun ins =>
       match ins with
       | [v] => call_ None (CopyVariable "default" v VNone) returning_none
       | _ => Throw TypeError
       end;
     mutate_update_deltas := Done VNone |}.

Definition model_node : Node :=
  {| name := "model";
     architecture_children := [sequential_node];
     get_hyperparameter := fun key =>
       if String.eqb key "learning_rate" then Some (VInt 1) else None;
     get_input_keys := Done [];
     init_long_range_dependencies := Done VNone;
     init_state :=
       call_ None (SetHyperparameter "lm" "num_units" (VInt 99)) (fun _ =>
       call_ None (SetHyperparameter "seq" "output_dim" (VInt 5))
         returning_none);
     compute_output := fun _ =>
       call_ None (CreateVariable "default" []) returning_none;
     mutate_update_deltas :=
       call_ None (SetUpdateDelta "lm:weight" (VInt 0)) returning_none |}.

Definition demo_start : Run :=
  {| net := Network_init model_node None None; log := [] |}.

Definition demo_run : Run := Eval vm_compute in fst (build demo_start).

Definition demo : Network := net demo_run.

Definition demo_graph : TreeanoGraph :=
  Eval vm_compute in
    match graph demo with
    | Some g => g
    | None => Graph.init model_node
    end.

(** The network while the model node wires its input to the sequential
    node, before the graph is frozen. *)
Definition demo_wiring_graph : TreeanoGraph :=
  {| is_mutable := true;
     graph_root := model_node;
     dependencies :=
       [{| dep_from := "model"; dep_to := "seq";
           dep_from_key := "images"; dep_to_key := "default" |}] |}.

Definition demo_wiring : Network :=
  set_graph (Some demo_wiring_graph) (Network_init model_node None None).

(** A node whose output-computation hook returns its result instead of
    creating a variable for it. *)
Definition returning_node : Node :=
  {| name := "double";
     architecture_children := [];
     get_hyperparameter := no_hyperparameter;
     get_input_keys := Done [];
     init_long_range_dependencies := Done VNone;
     init_state := Done VNone;
     compute_output := fun _ => Done (VInt 2);
     mutate_update_deltas := Done VNone |}.

Definition returning_start : Run :=
  {| net := Network_init returning_node None None; log := [] |}.

(** The built network after the model node has created a further variable,
    after the linear mapping has set a hyperparameter for itself, and after
    the model node has forwarded its learning rate to the linear mapping. *)
Definition demo_loss : Network :=
  Eval vm_compute in fst (create_variable model_node "loss" [] demo).

Definition demo_own : Network :=
  Eval vm_compute in
    fst (set_hyperparameter linear_mapping_node "lm" "num_units" (VInt 3) demo).

Definition demo_step : Network :=
  Eval vm_compute in
    fst (forward_hyperparameter model_node "lm" "step" ["learning_rate"] None
           demo).

(** A linear mapping alone: its input port has no incoming edge.  The
    network is the one the output-computation phase starts on. *)
Definition unwired : Run :=
  {| net :=
       set_graph (Some (Graph.freeze (Graph.init linear_mapping_node)))
         (set_node_state {[ "lm" := empty_node_state ]}
            (Network_init linear_mapping_node None None));
     log := [] |}.

(** A node whose [init_state] reads a variable that does not exist yet. *)
Definition hasty_node : Node :=
  {| name := "head";
     architecture_children := [];
     get_hyperparameter := no_hyperparameter;
     get_input_keys := Done [];
     init_long_range_dependencies := Done VNone;
     init_state := call_ None (GetVariable "weight") returning_none;
     compute_output := fun _ => Done VNone;
     mutate_update_deltas := Done VNone |}.

Definition hasty_start : Run :=
  {| net := Network_init hasty_node None None; log := [] |}.

(** * Properties *)

(** ** Hyperparameter resolution *)

Lemma head_app {A} (l1 l2 : list A) :
  head (l1 ++ l2) = match head l1 with Some x => Some x | None => head l2 end.
Proof. by destruct l1. Qed.

Lemma head_yield_present d keys :
  head (yield_present d keys) = first_present d keys.
Proof.
  induction keys as [|key keys IH]; simpl; [done|].
  by destruct (d !! key).
Qed.

Lemma head_yield_set node_hps key prefix :
  head (yield_set node_hps key prefix) = first_set node_hps key prefix.
Proof.
  induction prefix as [|b prefix IH]; simpl; [done|].
  destruct (node_hps !! b) as [hps|]; simpl; [|done].
  by destruct (hps !! key).
Qed.

Lemma head_yield_node a node_hps prefix keys :
  head (yield_node a node_hps prefix keys)
  = first_at_node a node_hps prefix keys.
Proof.
  induction keys as [|key keys IH]; simpl; [done|].
  rewrite head_app, head_yield_set.
  destruct (first_set node_hps key prefix); [done|].
  rewrite head_app. by destruct (get_hyperparameter a key).
Qed.

(** With every state in place the loop over the chain runs to its end: it
    yields the values of the chain and goes on with what follows it. *)
Lemma yield_chain_then n keys prefix chain then_ :
  chain_has_state n chain ->
  yield_chain n keys prefix chain then_
  = yield_all (yielded (yield_chain n keys prefix chain exhausted)) then_.
Proof.
  intros Hst. revert prefix.
  induction Hst as [|a chain [st Hst] _ IH]; intros prefix; simpl.
  - by destruct then_.
  - rewrite Hst. rewrite IH. unfold yield_all; simpl.
    by rewrite <- app_assoc.
Qed.

Lemma head_yield_chain n keys prefix chain :
  chain_has_state n chain ->
  head (yielded (yield_chain n keys prefix chain exhausted))
  = hierarchy_tier n keys prefix chain.
Proof.
  intros Hst. revert prefix.
  induction Hst as [|a chain [st Hst] _ IH]; intros prefix; simpl; [done|].
  unfold pushed_by. rewrite Hst. simpl.
  rewrite head_app, head_yield_node.
  destruct (first_at_node _ _ _ _); [done|]. apply IH.
Qed.

Lemma stopped_yield_chain n keys prefix chain :
  chain_has_state n chain ->
  stopped (yield_chain n keys prefix chain exhausted) = None.
Proof.
  intros Hst. revert prefix.
  induction Hst as [|a chain [st Hst] _ IH]; intros prefix; simpl; [done|].
  rewrite Hst. simpl. apply IH.
Qed.

(** The generator of a built network whose chain has its states: the four
    tiers one after the other, and no exception. *)
Lemma find_hyperparameters_tiers n g self keys default_value :
  graph n = Some g ->
  chain_has_state n (chain_of g self) ->
  find_hyperparameters self keys default_value n
  = {| yielded :=
         yield_present (override_hyperparameters n) keys
         ++ yielded (yield_chain n keys [] (chain_of g self) exhausted)
         ++ match default_value with Some v => [v] | None => [] end
         ++ yield_present (default_hyperparameters n) keys;
       stopped := None |}.
Proof.
  intros Hg Hst. unfold find_hyperparameters. rewrite Hg.
  fold (chain_of g self). rewrite yield_chain_then by done.
  unfold yield_all, exhausted; simpl. by rewrite app_nil_r.
Qed.

(** The first value of the generator is the result of the tiered search. *)
Lemma find_hyperparameter_resolves n g self keys default_value :
  graph n = Some g ->
  chain_has_state n (chain_of g self) ->
  find_hyperparameter self keys default_value n
  = (n, resolve n g self keys default_value).
Proof.
  intros Hg Hst. unfold find_hyperparameter, resolve.
  rewrite (find_hyperparameters_tiers n g) by done.
  rewrite <- !head_yield_present, <- head_yield_chain by done.
  cbn [yielded stopped].
  generalize (yield_present (override_hyperparameters n) keys) as t1.
  generalize (yielded (yield_chain n keys [] (chain_of g self) exhausted))
    as t2.
  generalize (yield_present (default_hyperparameters n) keys) as t4.
  intros t4 t2 t1.
  destruct t1 as [|? ?]; [|done].
  destruct t2 as [|? ?]; [|done].
  destruct default_value; [done|].
  by destruct t4.
Qed.

(** C1.  On a built network, [find_hyperparameter] returns the first value of
    the search through the four tiers in order: the override map by key order,
    the hierarchy over the chain [this node, parent, ..., root], the caller's
    default if one was given, the global default map by key order; a match of
    an earlier tier is returned whatever the later tiers hold: an entry of
    the override map whatever the hierarchy holds, a value of the hierarchy,
    for whichever candidate key, whatever default the caller gave. *)
Theorem find_hyperparameter_tier_order n g self keys default_value :
  graph n = Some g ->
  chain_has_state n (chain_of g self) ->
  find_hyperparameter self keys default_value n
  = (n, resolve n g self keys default_value)
  ∧ (∀ v, first_present (override_hyperparameters n) keys = Some v ->
          find_hyperparameter self keys default_value n = (n, Ok v))
  ∧ (∀ v, first_present (override_hyperparameters n) keys = None ->
          hierarchy_tier n keys [] (chain_of g self) = Some v ->
          find_hyperparameter self keys default_value n = (n, Ok v)).
Proof.
  intros Hg Hst.
  pose proof (find_hyperparameter_resolves n g self keys default_value Hg Hst)
    as Hresolve.
  split_and!.
  - exact Hresolve.
  - intros v Hoverride. rewrite Hresolve. unfold resolve.
    by rewrite Hoverride.
  - intros v Hoverride Hhierarchy. rewrite Hresolve. unfold resolve.
    by rewrite Hoverride, Hhierarchy.
Qed.

Lemma find_hyperparameter_tier_order_witness :
  find_hyperparameter linear_mapping_node ["num_units"; "output_dim"]
    (Some (VInt 3)) demo
  = (demo, Ok (VInt 7)).
Proof.
  destruct (find_hyperparameter_tier_order demo demo_graph
              linear_mapping_node ["num_units"; "output_dim"] (Some (VInt 3)))
    as (_ & _ & Hhierarchy).
  - reflexivity.
  - repeat constructor; eexists; vm_compute; reflexivity.
  - apply Hhierarchy; vm_compute; reflexivity.
Defined.

(** An entry of the override map is returned whatever the hierarchy holds, and
    before the graph or any node state is looked at. *)
Lemma override_beats_hierarchy n self keys default_value v :
  first_present (override_hyperparameters n) keys = Some v ->
  find_hyperparameter self keys default_value n = (n, Ok v).
Proof.
  intros Hv. unfold find_hyperparameter, find_hyperparameters.
  rewrite <- head_yield_present in Hv. cbn [yielded yield_all].
  by destruct (yield_present (override_hyperparameters n) keys);
    simplify_eq/=.
Qed.

(** A value of the hierarchy tier is returned whatever default the caller
    gives. *)
Lemma hierarchy_beats_default n g self keys default_value v :
  graph n = Some g ->
  chain_has_state n (chain_of g self) ->
  first_present (override_hyperparameters n) keys = None ->
  hierarchy_tier n keys [] (chain_of g self) = Some v ->
  find_hyperparameter self keys default_value n = (n, Ok v).
Proof.
  intros Hg Hst Hoverride Hhierarchy.
  rewrite (find_hyperparameter_resolves n g) by done.
  unfold resolve. by rewrite Hoverride, Hhierarchy.
Qed.

(** C4.  Without a caller default, [find_hyperparameter] raises
    [MissingHyperparameter], carrying the candidate keys, when no tier yields
    a value, and returns a value without raising as soon as one tier does. *)
Theorem find_hyperparameter_missing n g self keys :
  graph n = Some g ->
  chain_has_state n (chain_of g self) ->
  let override_tier := yield_present (override_hyperparameters n) keys in
  let hierarchy := yielded (yield_chain n keys [] (chain_of g self) exhausted) in
  let global_tier := yield_present (default_hyperparameters n) keys in
  (override_tier = [] ∧ hierarchy = [] ∧ global_tier = [] ->
   find_hyperparameter self keys None n
   = (n, Raise (MissingHyperparameter keys)))
  ∧ (override_tier ≠ [] ∨ hierarchy ≠ [] ∨ global_tier ≠ [] ->
     ∃ v, find_hyperparameter self keys None n = (n, Ok v)).
Proof.
  intros Hg Hst t1 t2 t4. subst t1 t2 t4.
  unfold find_hyperparameter.
  rewrite (find_hyperparameters_tiers n g) by done. cbn [yielded stopped].
  generalize (yield_present (override_hyperparameters n) keys) as t1.
  generalize (yielded (yield_chain n keys [] (chain_of g self) exhausted))
    as t2.
  generalize (yield_present (default_hyperparameters n) keys) as t4.
  intros t4 t2 t1. split.
  - by intros (-> & -> & ->).
  - destruct t1 as [|v1 ?]; [|by eauto].
    destruct t2 as [|v2 ?]; [|by eauto].
    destruct t4 as [|v4 ?]; [|by eauto].
    by intros [?|[?|?]].
Qed.

Lemma find_hyperparameter_missing_witness :
  find_hyperparameter linear_mapping_node ["momentum"] None demo
  = (demo, Raise (MissingHyperparameter ["momentum"]))
  ∧ ∃ v, find_hyperparameter linear_mapping_node ["momentum"; "batch_axis"]
           None demo = (demo, Ok v).
Proof.
  split.
  - apply (find_hyperparameter_missing demo demo_graph); [reflexivity| |].
    + repeat constructor; eexists; reflexivity.
    + repeat split; reflexivity.
  - apply (find_hyperparameter_missing demo demo_graph); [reflexivity| |].
    + repeat constructor; eexists; reflexivity.
    + right; right. discriminate.
Defined.

(** *** Order inside the hierarchy tier *)

Lemma yield_node_app a node_hps prefix keys1 keys2 :
  yield_node a node_hps prefix (keys1 ++ keys2)
  = yield_node a node_hps prefix keys1 ++ yield_node a node_hps prefix keys2.
Proof.
  induction keys1 as [|key keys1 IH]; simpl; [done|].
  by rewrite IH, <- !app_assoc.
Qed.

Lemma yield_set_pushed node_hps key prefix b v :
  b ∈ prefix ->
  node_hps !! b ≫= (.!! key) = Some v ->
  yield_set node_hps key prefix ≠ [].
Proof.
  intros Hin Hv. induction prefix as [|b' prefix IH]; simpl.
  - by apply elem_of_nil in Hin.
  - apply elem_of_cons in Hin as [<-|Hin].
    + destruct (node_hps !! b) as [hps|]; simpl in Hv; [|done].
      by rewrite Hv.
    + destruct (node_hps !! b') as [hps|]; [|by auto].
      destruct (hps !! key); [done|by auto].
Qed.

Lemma yield_chain_app n keys prefix chain1 chain2 :
  chain_has_state n chain1 ->
  yielded (yield_chain n keys prefix (chain1 ++ chain2) exhausted)
  = yielded (yield_chain n keys prefix chain1 exhausted)
    ++ yielded (yield_chain n keys (prefix ++ (name <$> chain1)) chain2
                  exhausted).
Proof.
  intros Hst. revert prefix.
  induction Hst as [|a chain1 [st Hst] _ IH]; intros prefix; simpl.
  - by rewrite app_nil_r.
  - rewrite Hst. cbn [yielded yield_all]. rewrite IH.
    by rewrite <- !app_assoc.
Qed.

Lemma yield_chain_prefix n keys prefix chain1 chain2 then_ :
  chain_has_state n chain1 ->
  yield_chain n keys prefix (chain1 ++ chain2) then_
  = yield_all (yielded (yield_chain n keys prefix chain1 exhausted))
      (yield_chain n keys (prefix ++ (name <$> chain1)) chain2 then_).
Proof.
  intros Hst. revert prefix.
  induction Hst as [|a chain1 [st Hst] _ IH]; intros prefix; simpl.
  - rewrite app_nil_r. by destruct (yield_chain n keys prefix chain2 then_).
  - rewrite Hst. rewrite IH. unfold yield_all; simpl.
    by rewrite <- !app_assoc.
Qed.

Lemma head_app_nonempty {A} (l1 l2 : list A) :
  l1 ≠ [] -> head (l1 ++ l2) = head l1.
Proof. by destruct l1. Qed.

Lemma yield_chain_one n keys prefix a :
  is_Some (node_state n !! name a) ->
  yielded (yield_chain n keys prefix [a] exhausted)
  = yield_node a (pushed_by n a) (prefix ++ [name a]) keys.
Proof.
  intros [st Hst]. unfold pushed_by. simpl. rewrite Hst. simpl.
  by rewrite app_nil_r.
Qed.

Lemma yield_node_pushed a node_hps visited keys1 key keys2 b v :
  b ∈ visited ->
  node_hps !! b ≫= (.!! key) = Some v ->
  yield_node a node_hps visited (keys1 ++ [key]) ≠ []
  ∧ yield_node a node_hps visited (keys1 ++ key :: keys2)
    = yield_node a node_hps visited (keys1 ++ [key])
      ++ yield_node a node_hps visited keys2.
Proof.
  intros Hb Hv. split.
  - rewrite yield_node_app. simpl.
    pose proof (yield_set_pushed _ _ _ _ _ Hb Hv) as Hne.
    destruct (yield_set node_hps key visited); [done|].
    by destruct (yield_node a node_hps visited keys1).
  - replace (keys1 ++ key :: keys2) with ((keys1 ++ [key]) ++ keys2)
      by (by rewrite <- app_assoc).
    apply yield_node_app.
Qed.

(** The order in which the loop over the chain yields: once a node of the
    chain holds a value, the first value is one of that node or of a closer
    one, and at that node the keys are gone through in their order. *)
Lemma yield_chain_precedence n keys1 key keys2 pre a post b v :
  chain_has_state n (pre ++ [a]) ->
  b ∈ (name <$> pre) ++ [name a] ->
  pushed_by n a !! b ≫= (.!! key) = Some v ->
  let keys := keys1 ++ key :: keys2 in
  let visited := (name <$> pre) ++ [name a] in
  let tier chain := head (yielded (yield_chain n keys [] chain exhausted)) in
  is_Some (tier (pre ++ a :: post))
  ∧ tier (pre ++ a :: post) = tier (pre ++ [a])
  ∧ head (yield_node a (pushed_by n a) visited keys)
    = head (yield_node a (pushed_by n a) visited (keys1 ++ [key]))
  ∧ (yielded (yield_chain n keys [] pre exhausted) = [] ->
     yield_node a (pushed_by n a) visited keys1 = [] ->
     tier (pre ++ a :: post) = first_set (pushed_by n a) key visited).
Proof.
  intros Hst Hb Hv keys visited tier.
  destruct (yield_node_pushed a _ _ keys1 key keys2 _ _ Hb Hv) as [Hne Hkeys].
  fold visited keys in Hne, Hkeys.
  assert (Hpre : chain_has_state n pre).
  { by apply Forall_app in Hst as [? _]. }
  assert (Ha : is_Some (node_state n !! name a)).
  { apply Forall_app in Hst as [_ Ha]. by inversion Ha. }
  assert (Hnear : yielded (yield_chain n keys [] (pre ++ [a]) exhausted)
                  = yielded (yield_chain n keys [] pre exhausted)
                    ++ yield_node a (pushed_by n a) visited keys).
  { by rewrite yield_chain_app, yield_chain_one by done. }
  assert (Hfar : yielded (yield_chain n keys [] (pre ++ a :: post) exhausted)
                 = yielded (yield_chain n keys [] (pre ++ [a]) exhausted)
                   ++ yielded (yield_chain n keys
                                 ([] ++ (name <$> (pre ++ [a]))) post
                                 exhausted)).
  { rewrite <- yield_chain_app by done. by rewrite <- app_assoc. }
  assert (Hsome : yielded (yield_chain n keys [] (pre ++ [a]) exhausted) ≠ []).
  { rewrite Hnear, Hkeys.
    destruct (yield_node a (pushed_by n a) visited (keys1 ++ [key]));
      [done|].
    by destruct (yielded (yield_chain n keys [] pre exhausted)). }
  assert (Htier : tier (pre ++ a :: post) = tier (pre ++ [a])).
  { unfold tier. rewrite Hfar. by apply head_app_nonempty. }
  split_and!.
  - rewrite Htier. unfold tier.
    by destruct (yielded (yield_chain n keys [] (pre ++ [a]) exhausted)).
  - done.
  - rewrite Hkeys. by apply head_app_nonempty.
  - intros Hnone1 Hnone2. rewrite Htier. unfold tier.
    rewrite Hnear, Hnone1. simpl. unfold keys.
    rewrite yield_node_app, Hnone2. simpl.
    rewrite <- head_yield_set.
    pose proof (yield_set_pushed _ _ _ _ _ Hb Hv) as Hne'. fold visited in Hne'.
    by destruct (yield_set (pushed_by n a) key visited).
Qed.








(** ** Variables of a node *)

Lemma has_key_true {V} (m : gmap string V) k :
  has_key m k = true <-> is_Some (m !! k).
Proof.
  unfold has_key. destruct (m !! k); split; done.
Qed.

Lemma has_key_false {V} (m : gmap string V) k :
  has_key m k = false <-> m !! k = None.
Proof. unfold has_key. by destruct (m !! k). Qed.

Lemma has_key_insert {V} (m : gmap string V) k v :
  has_key (<[k := v]> m) k = true.
Proof. unfold has_key. by rewrite lookup_insert_eq. Qed.

(** C5.  [create_variable] fails when the local name is already in the node's
    [current_variables] or [original_variables]; otherwise it stores one and
    the same new Variable under the name in both maps and returns it, after
    which creating a variable of that name on the node fails. *)
Theorem create_variable_unique self local_name kwargs n st :
  node_state n !! name self = Some st ->
  let v := {| vw_name := name self +:+ ":" +:+ local_name;
              vw_relative_network := name self;
              vw_kwargs := kwargs |} in
  (is_Some (current_variables st !! local_name)
   ∨ is_Some (original_variables st !! local_name) ->
   create_variable self local_name kwargs n = (n, Raise AssertionError))
  ∧ (current_variables st !! local_name = None ->
     original_variables st !! local_name = None ->
     ∃ n' st',
       create_variable self local_name kwargs n = (n', Ok v)
       ∧ node_state n' !! name self = Some st'
       ∧ current_variables st' !! local_name = Some v
       ∧ original_variables st' !! local_name = Some v
       ∧ ∀ kwargs',
           create_variable self local_name kwargs' n'
           = (n', Raise AssertionError)).
Proof.
  intros Hst v. split.
  - intros Hin. unfold create_variable, bind, state_of. rewrite Hst.
    destruct Hin as [Hin|Hin]; apply has_key_true in Hin.
    + by rewrite Hin.
    + rewrite Hin. by destruct (has_key (current_variables st) local_name).
  - intros Hcur Horig.
    eexists _, _. split_and!.
    + unfold create_variable, bind, state_of. rewrite Hst.
      apply has_key_false in Hcur, Horig. rewrite Hcur, Horig. simpl.
      reflexivity.
    + simpl. by rewrite lookup_insert_eq.
    + simpl. by rewrite lookup_insert_eq.
    + simpl. by rewrite lookup_insert_eq.
    + intros kwargs'. unfold create_variable, bind, state_of. simpl.
      rewrite lookup_insert_eq. simpl. by rewrite has_key_insert.
Qed.

Lemma create_variable_unique_witness :
  ∃ n' v,
    create_variable model_node "weight" [] demo = (n', Ok v)
    ∧ create_variable model_node "weight" [("shape", VInt 3)] n'
      = (n', Raise AssertionError).
Proof.
  destruct (create_variable_unique model_node "weight" [] demo
              (default empty_node_state (node_state demo !! "model")))
    as [_ Hnew].
  { vm_compute; reflexivity. }
  destruct Hnew as (n' & st' & Hcreate & _ & _ & _ & Hagain).
  { vm_compute; reflexivity. }
  { vm_compute; reflexivity. }
  exists n'. eexists. split; [exact Hcreate|apply Hagain].
Defined.

(** C6.  [replace_variable] fails unless the local name is in the node's
    [original_variables]; when it succeeds it returns the new variable and
    writes it under the name in [current_variables] and nowhere else:
    [original_variables] still maps the name to the variable created first,
    and every other entry of the node, of the other nodes and of the network
    is as it was. *)
Theorem replace_variable_frame self local_name new_variable n st :
  node_state n !! name self = Some st ->
  (original_variables st !! local_name = None ->
   replace_variable self local_name new_variable n
   = (n, Raise AssertionError))
  ∧ (∀ first, original_variables st !! local_name = Some first ->
     ∃ n' st',
       replace_variable self local_name new_variable n
       = (n', Ok new_variable)
       ∧ node_state n' !! name self = Some st'
       ∧ current_variables st' !! local_name = Some new_variable
       ∧ original_variables st' !! local_name = Some first
       ∧ original_variables st' = original_variables st
       ∧ (∀ other, other ≠ local_name ->
            current_variables st' !! other = current_variables st !! other)
       ∧ additional_data st' = additional_data st
       ∧ set_hyperparameters st' = set_hyperparameters st
       ∧ inputs st' = inputs st
       ∧ (∀ m, m ≠ name self -> node_state n' !! m = node_state n !! m)
       ∧ graph n' = graph n
       ∧ update_deltas n' = update_deltas n
       ∧ override_hyperparameters n' = override_hyperparameters n
       ∧ default_hyperparameters n' = default_hyperparameters n).
Proof.
  intros Hst. split.
  - intros Hnone. unfold replace_variable, bind, state_of. rewrite Hst.
    apply has_key_false in Hnone. by rewrite Hnone.
  - intros first Hfirst. eexists _, _. split_and!.
    + unfold replace_variable, bind, state_of. rewrite Hst.
      assert (Hin : has_key (original_variables st) local_name = true).
      { apply has_key_true. by eauto. }
      rewrite Hin. simpl. reflexivity.
    + simpl. by rewrite lookup_insert_eq.
    + simpl. by rewrite lookup_insert_eq.
    + done.
    + done.
    + intros other Hne. simpl. by rewrite lookup_insert_ne.
    + done.
    + done.
    + done.
    + intros m Hne. simpl. by rewrite lookup_insert_ne.
    + done.
    + done.
    + done.
    + done.
Qed.

Lemma replace_variable_frame_witness :
  ∃ n' first st',
    replace_variable linear_mapping_node "weight"
      {| vw_name := "lm:weight:sequence"; vw_relative_network := "lm";
         vw_kwargs := [] |} demo
    = (n', Ok {| vw_name := "lm:weight:sequence"; vw_relative_network := "lm";
                 vw_kwargs := [] |})
    ∧ node_state n' !! "lm" = Some st'
    ∧ original_variables st' !! "weight" = Some first
    ∧ vw_name first = "lm:weight".
Proof.
  destruct (replace_variable_frame linear_mapping_node "weight"
              {| vw_name := "lm:weight:sequence"; vw_relative_network := "lm";
                 vw_kwargs := [] |} demo
              (default empty_node_state (node_state demo !! "lm")))
    as [_ Hreplace].
  { vm_compute; reflexivity. }
  destruct (Hreplace {| vw_name := "lm:weight"; vw_relative_network := "lm";
                        vw_kwargs := [("output_dim", VInt 7)] |})
    as (n' & st' & Hrun & Hst' & _ & Hfirst & _).
  { vm_compute; reflexivity. }
  eexists n', _, st'. split_and!; [exact Hrun|exact Hst'|exact Hfirst|].
  reflexivity.
Defined.

Lemma create_variable_stored self local_name kwargs n n1 v0 :
  create_variable self local_name kwargs n = (n1, Ok v0) ->
  ∃ st1, node_state n1 !! name self = Some st1
         ∧ current_variables st1 !! local_name = Some v0
         ∧ original_variables st1 !! local_name = Some v0.
Proof.
  unfold create_variable, bind, state_of.
  destruct (node_state n !! name self) as [st|] eqn:Hst; [|done].
  destruct (has_key (current_variables st) local_name); [done|].
  destruct (has_key (original_variables st) local_name); [done|].
  simpl. intros [= <- <-]. eexists. simpl.
  rewrite lookup_insert_eq. split_and!; [done| |]; simpl;
    by rewrite lookup_insert_eq.
Qed.

(** The variable [replace_variable] leaves in [original_variables] is the one
    [create_variable] made. *)
Lemma replace_after_create self local_name kwargs new_variable n n1 v0 :
  create_variable self local_name kwargs n = (n1, Ok v0) ->
  ∃ n2 st2,
    replace_variable self local_name new_variable n1 = (n2, Ok new_variable)
    ∧ node_state n2 !! name self = Some st2
    ∧ original_variables st2 !! local_name = Some v0
    ∧ current_variables st2 !! local_name = Some new_variable.
Proof.
  intros (st1 & Hst1 & _ & Horig)%create_variable_stored.
  assert (Hin : has_key (original_variables st1) local_name = true).
  { apply has_key_true. by eauto. }
  eexists _, _. split_and!.
  - unfold replace_variable, bind, state_of. rewrite Hst1, Hin. simpl.
    reflexivity.
  - simpl. by rewrite lookup_insert_eq.
  - done.
  - simpl. by rewrite lookup_insert_eq.
Qed.

(** ** Dependency editing *)

(** Modelled from the spec: once the graph is frozen, adding or removing a
    dependency edge fails and leaves the graph as it was. *)
Lemma frozen_graph_rejects_edits g :
  is_mutable g = false ->
  (∀ from_name to_name from_key to_key,
     Graph.add_dependency from_name to_name from_key to_key g
     = (g, Raise (Exception "GraphMutationAfterFreeze")))
  ∧ (∀ from_name to_name,
       Graph.remove_dependency from_name to_name g
       = (g, Raise (Exception "GraphMutationAfterFreeze"))).
Proof.
  intros Hfrozen. unfold Graph.add_dependency, Graph.remove_dependency.
  by rewrite Hfrozen.
Qed.

(** C7.  [forward_input_to] on a node whose input port has no incoming edge
    does nothing when [ignore_no_input] is true and raises [ValueError] when
    it is false; when the port has an incoming edge it adds to the graph the
    dependency from that edge's source node and key to the named node under
    [to_key]. *)
Theorem forward_input_to_cases self node_name previous_to_key to_key
    ignore_no_input n g :
  graph n = Some g ->
  match Graph.input_edge_for_node g (name self) previous_to_key with
  | None =>
      forward_input_to_kw self node_name (Some previous_to_key) (Some to_key)
        None n = (n, Ok tt)
      ∧ if ignore_no_input then
          forward_input_to self node_name previous_to_key to_key true n
          = (n, Ok tt)
        else
          ∃ msg,
            forward_input_to self node_name previous_to_key to_key false n
            = (n, Raise (ValueError msg))
  | Some (name_from, from_key) =>
      forward_input_to self node_name previous_to_key to_key
        ignore_no_input n
      = add_dependency self name_from node_name from_key to_key n
      ∧ (is_mutable g = true ->
         Graph.would_cycle g name_from node_name = false ->
         ∃ n' g',
           forward_input_to self node_name previous_to_key to_key
             ignore_no_input n = (n', Ok tt)
           ∧ graph n' = Some g'
           ∧ dependencies g'
             = dependencies g
               ++ [{| dep_from := name_from; dep_to := node_name;
                      dep_from_key := from_key; dep_to_key := to_key |}]
           ∧ node_state n' = node_state n
           ∧ update_deltas n' = update_deltas n)
  end.
Proof.
  intros Hg. unfold forward_input_to_kw, forward_input_to, bind, the_graph.
  rewrite Hg. simpl.
  destruct (Graph.input_edge_for_node g (name self) previous_to_key)
    as [[name_from from_key]|].
  - split; [done|]. intros Hmut Hacyclic.
    unfold on_graph, Graph.add_dependency. rewrite Hg, Hmut, Hacyclic. simpl.
    by eexists _, _.
  - split; [done|]. destruct ignore_no_input; simpl; [done|]. by eexists.
Qed.

Lemma forward_input_to_cases_witness :
  ∃ n' g',
    forward_input_to sequential_node "i" "default" "default" true demo_wiring
    = (n', Ok tt)
    ∧ graph n' = Some g'
    ∧ dependencies g'
      = [{| dep_from := "model"; dep_to := "seq";
            dep_from_key := "images"; dep_to_key := "default" |};
         {| dep_from := "model"; dep_to := "i";
            dep_from_key := "images"; dep_to_key := "default" |}].
Proof.
  destruct (forward_input_to_cases sequential_node "i" "default" "default"
              true demo_wiring demo_wiring_graph eq_refl) as [_ H].
  destruct H as (n' & g' & Hrun & Hg' & Hdeps & _);
    [reflexivity|reflexivity|].
  by exists n', g'.
Defined.

(** ** Reasoning about computations *)

Section obeys.
Context {S : Type} (R : S -> S -> option exn -> Prop) `{!Composable R}.

Lemma obeys_ret {A} (a : A) : obeys R (ret a).
Proof. intros s. apply comp_refl. Qed.

Lemma obeys_raise {A} e : obeys R (raise (A := A) e).
Proof. intros s. apply comp_refl. Qed.

Lemma obeys_assert b : obeys R (assert b).
Proof. destruct b; [apply obeys_ret|apply obeys_raise]. Qed.

Lemma obeys_bind {A B} (m : M S A) (f : A -> M S B) :
  obeys R m -> (∀ a, obeys R (f a)) -> obeys R (bind m f).
Proof.
  intros Hm Hf s. unfold bind. specialize (Hm s).
  destruct (m s) as [s1 [a|e]]; simpl in *; [|done].
  eapply comp_trans; [done|]. apply Hf.
Qed.

Lemma obeys_for_each {A} (l : list A) (body : A -> M S unit) :
  (∀ x, obeys R (body x)) -> obeys R (for_each l body).
Proof.
  intros Hbody. induction l as [|x l IH]; simpl.
  - apply obeys_ret.
  - by apply obeys_bind.
Qed.

Lemma obeys_collect {A B} (l : list A) (f : A -> M S B) :
  (∀ x, obeys R (f x)) -> obeys R (collect l f).
Proof.
  intros Hf. induction l as [|x l IH]; simpl.
  - apply obeys_ret.
  - apply obeys_bind; [done|]. intros y.
    apply obeys_bind; [done|]. intros ys. apply obeys_ret.
Qed.

End obeys.

Lemma bind_ok {S A B} (m : M S A) (f : A -> M S B) s s1 a :
  m s = (s1, Ok a) -> bind m f s = f a s1.
Proof. unfold bind. by intros ->. Qed.

Lemma bind_raise {S A B} (m : M S A) (f : A -> M S B) s s1 e :
  m s = (s1, Raise e) -> bind m f s = (s1, Raise e).
Proof. unfold bind. by intros ->. Qed.

(** ** What the methods of a view change *)

Lemma evolves_refl n : evolves n n.
Proof. split; try done; by eauto. Qed.

Lemma evolves_trans n1 n2 n3 : evolves n1 n2 -> evolves n2 n3 -> evolves n1 n3.
Proof.
  intros [? ? ? Hs1 Hg1] [? ? ? Hs2 Hg2]. split; try congruence.
  - intros m st Hst.
    destruct (Hs1 m st Hst) as (st1 & Hst1 & ?).
    destruct (Hs2 m st1 Hst1) as (st2 & Hst2 & ?).
    exists st2. split; [done|]. by etrans.
  - intros g Hg.
    destruct (Hg1 g Hg) as (g1 & Hg1' & Hroot1 & Hfrozen1).
    destruct (Hg2 g1 Hg1') as (g2 & Hg2' & Hroot2 & Hfrozen2).
    exists g2. split_and!; [done|congruence|].
    intros Hfrozen. specialize (Hfrozen1 Hfrozen). subst g1. by auto.
Qed.

#[local] Instance evolving_composable : Composable evolving_rel.
Proof.
  split.
  - intros n o. apply evolves_refl.
  - intros n n1 n2 o. apply evolves_trans.
Qed.

Lemma evolves_put_state self st st' n :
  node_state n !! name self = Some st ->
  original_variables st ⊆ original_variables st' ->
  evolves n (set_node_state (<[name self := st']> (node_state n)) n).
Proof.
  intros Hst Hsub. split; simpl; try done; [|by eauto].
  intros m st0 Hst0. destruct (decide (m = name self)) as [->|Hne].
  - rewrite lookup_insert_eq. simplify_eq. by eauto.
  - rewrite lookup_insert_ne by done. by eauto.
Qed.

Lemma evolves_set_graph n g g' :
  graph n = Some g ->
  graph_root g' = graph_root g ->
  (is_mutable g = false -> g' = g) ->
  evolves n (set_graph (Some g') n).
Proof.
  intros Hg Hroot Hfrozen. split; simpl; try done; [by eauto|].
  intros g0 Hg0. simplify_eq. by eauto.
Qed.

Lemma evolves_set_update_deltas n u : evolves n (set_update_deltas u n).
Proof. split; simpl; try done; by eauto. Qed.

Ltac unfold_method :=
  unfold obeys, evolving_rel, bind, state_of, the_graph, put_state, modify,
    assert, ret, raise.

Ltac evolve :=
  intros n; unfold_method; simpl;
  repeat (case_match; simplify_eq/=);
  first
    [ apply evolves_refl
    | eapply evolves_put_state; [eassumption|]; simpl; try done ].

Lemma store_inputs_evolves self ins : obeys evolving_rel (store_inputs self ins).
Proof. unfold store_inputs. evolve. Qed.

Lemma set_data_evolves self key v : obeys evolving_rel (set_data self key v).
Proof. unfold set_data. evolve. Qed.

Lemma get_data_evolves self key : obeys evolving_rel (get_data self key).
Proof. unfold get_data. evolve. Qed.

Lemma get_variable_evolves self x : obeys evolving_rel (get_variable self x).
Proof. unfold get_variable. evolve. Qed.

Lemma set_hyperparameter_evolves self node_name key v :
  obeys evolving_rel (set_hyperparameter self node_name key v).
Proof. unfold set_hyperparameter. evolve. Qed.

Lemma find_hyperparameter_pure self keys default_value n :
  fst (find_hyperparameter self keys default_value n) = n.
Proof. unfold find_hyperparameter. by repeat case_match. Qed.

Lemma find_hyperparameter_evolves self keys default_value :
  obeys evolving_rel (find_hyperparameter self keys default_value).
Proof. intros n. rewrite find_hyperparameter_pure. apply evolves_refl. Qed.

Lemma all_hyperparameters_evolves self keys default_value :
  obeys evolving_rel (all_hyperparameters self keys default_value).
Proof.
  intros n. unfold all_hyperparameters. case_match; apply evolves_refl.
Qed.

Lemma forward_hyperparameter_evolves self node_name key keys default_value :
  obeys evolving_rel
    (forward_hyperparameter self node_name key keys default_value).
Proof.
  apply obeys_bind; [apply _|apply find_hyperparameter_evolves|].
  intros v. apply set_hyperparameter_evolves.
Qed.

Lemma create_variable_evolves self x kwargs :
  obeys evolving_rel (create_variable self x kwargs).
Proof.
  unfold create_variable. evolve.
  apply insert_subseteq. by apply has_key_false, negb_true_iff.
Qed.

Lemma replace_variable_evolves self x v :
  obeys evolving_rel (replace_variable self x v).
Proof. unfold replace_variable. evolve. Qed.

Lemma on_graph_evolves {A} (m : M TreeanoGraph A) :
  (∀ g, graph_root (fst (m g)) = graph_root g
        ∧ (is_mutable g = false -> fst (m g) = g)) ->
  obeys evolving_rel (on_graph m).
Proof.
  intros Hm n. unfold on_graph, evolving_rel.
  destruct (graph n) as [g|] eqn:Hg; [|apply evolves_refl].
  destruct (Hm g) as [Hroot Hfrozen].
  destruct (m g) as [g' o]. simpl in *. by eapply evolves_set_graph.
Qed.

Lemma add_dependency_evolves self from_name to_name from_key to_key :
  obeys evolving_rel (add_dependency self from_name to_name from_key to_key).
Proof.
  apply on_graph_evolves. intros g. unfold Graph.add_dependency.
  destruct (is_mutable g); simpl; [|done].
  by destruct (Graph.would_cycle g from_name to_name).
Qed.

Lemma remove_dependency_evolves self from_name to_name :
  obeys evolving_rel (remove_dependency self from_name to_name).
Proof.
  apply on_graph_evolves. intros g. unfold Graph.remove_dependency.
  by destruct (is_mutable g).
Qed.

Lemma freeze_evolves : obeys evolving_rel (on_graph (modify Graph.freeze)).
Proof.
  apply on_graph_evolves. intros g. simpl. split; [done|].
  destruct g as [b root deps]. simpl. by intros ->.
Qed.

Lemma forward_input_to_evolves self node_name previous_to_key to_key ignore :
  obeys evolving_rel
    (forward_input_to self node_name previous_to_key to_key ignore).
Proof.
  unfold forward_input_to. apply obeys_bind; [apply _|by evolve|].
  intros g. destruct (Graph.input_edge_for_node _ _ _) as [[name_from from_key]|].
  - apply (add_dependency_evolves self).
  - destruct ignore; simpl; [apply obeys_ret|apply obeys_raise]; apply _.
Qed.

Lemma get_all_input_edges_evolves self :
  obeys evolving_rel (get_all_input_edges self).
Proof. unfold get_all_input_edges. evolve. Qed.

Lemma set_update_delta_evolves x expr :
  obeys evolving_rel (set_update_delta x expr).
Proof. intros n. apply evolves_set_update_deltas. Qed.

Lemma exec_call_evolves self {A} (c : call A) :
  obeys evolving_rel (exec_call self c).
Proof.
  destruct c; simpl.
  - apply store_inputs_evolves.
  - apply set_data_evolves.
  - apply get_data_evolves.
  - apply get_variable_evolves.
  - apply set_hyperparameter_evolves.
  - apply forward_hyperparameter_evolves.
  - apply find_hyperparameter_evolves.
  - apply all_hyperparameters_evolves.
  - apply create_variable_evolves.
  - apply create_variable_evolves.
  - apply replace_variable_evolves.
  - apply forward_input_to_evolves.
  - apply add_dependency_evolves.
  - apply add_dependency_evolves.
  - apply add_dependency_evolves.
  - apply remove_dependency_evolves.
  - apply get_all_input_edges_evolves.
  - apply set_update_delta_evolves.
Qed.

(** Making a view changes nothing. *)
Lemma relative_network_built_pure node n :
  fst (relative_network_built node n) = n.
Proof.
  unfold relative_network_built, build_reentered, RelativeNetwork_init,
    bind, state_of, ret.
  destruct (is_built n); simpl; [|done].
  by destruct (node_state n !! name node).
Qed.

Lemma getitem_built_pure node_name n : fst (getitem_built node_name n) = n.
Proof.
  unfold getitem_built, build_reentered, bind, the_graph, raise.
  destruct (is_built n); simpl; [|done].
  destruct (graph n) as [g|]; simpl; [|done].
  destruct (Graph.name_to_node g node_name) as [node|]; [|done].
  apply relative_network_built_pure.
Qed.

Lemma view_of_pure self on n : fst (view_of self on n) = n.
Proof. destruct on; simpl; [apply getitem_built_pure|done]. Qed.

Lemma run_hook_evolves {R} self (h : hook R) :
  obeys evolving_rel (run_hook self h).
Proof.
  induction h as [r|e|A on c k IH]; simpl.
  - apply obeys_ret, _.
  - apply obeys_raise, _.
  - intros n. unfold bind.
    pose proof (view_of_pure self on n) as Hview.
    destruct (view_of self on n) as [n0 [target|e]]; simpl in Hview; subst n0.
    + pose proof (exec_call_evolves target c n) as Hcall.
      destruct (exec_call target c n) as [n1 o]. simpl in Hcall.
      unfold evolving_rel in *. eapply evolves_trans; [done|]. apply IH.
    + apply IH.
Qed.

(** ** What the phases of [build] do *)

Lemma shows_mutable_false n :
  shows_mutable n = false <-> ∃ g, graph n = Some g ∧ is_mutable g = false.
Proof.
  unfold shows_mutable. destruct (graph n) as [g|]; split.
  - by eauto.
  - by intros (? & [= <-] & ?).
  - done.
  - by intros (? & ? & ?).
Qed.

Lemma evolves_frozen n n' :
  evolves n n' -> shows_mutable n = false ->
  graph n' = graph n ∧ shows_mutable n' = false.
Proof.
  intros Hev (g & Hg & Hfrozen)%shows_mutable_false.
  destruct (ev_graph _ _ Hev g Hg) as (g' & Hg' & _ & Heq).
  specialize (Heq Hfrozen). subst g'. split; [congruence|].
  apply shows_mutable_false. by eauto.
Qed.

Lemma evolves_built n n' : evolves n n' -> is_built n = true -> is_built n' = true.
Proof.
  intros Hev. unfold is_built.
  destruct (graph n) as [g|] eqn:Hg; [|done]. intros _.
  by destruct (ev_graph _ _ Hev g Hg) as (g' & -> & _).
Qed.

#[local] Instance grows_composable φ : Composable (grows φ).
Proof.
  split.
  - intros w o. split; [apply evolves_refl|].
    exists []. by rewrite app_nil_r.
  - intros w w1 w2 o [Hev1 (es1 & Hlog1 & Hφ1 & Hfr1)]
      [Hev2 (es2 & Hlog2 & Hφ2 & Hfr2)].
    split; [by eapply evolves_trans|].
    exists (es1 ++ es2). split_and!.
    + by rewrite Hlog2, Hlog1, app_assoc.
    + by apply Forall_app.
    + intros Hfrozen. apply Forall_app. split; [by auto|].
      apply Hfr2. by eapply evolves_frozen.
Qed.

Lemma grows_weaken (φ ψ : event -> Prop) {A} (m : M Run A) :
  (∀ e, φ e -> ψ e) -> obeys (grows φ) m -> obeys (grows ψ) m.
Proof.
  intros Hsub Hm w. destruct (Hm w) as [Hev (es & Hlog & Hφ & Hfr)].
  split; [done|]. exists es. split_and!; [done| |done].
  by eapply Forall_impl.
Qed.

Lemma in_net_log {A} (m : M Network A) w : log (fst (in_net m w)) = log w.
Proof. unfold in_net. by destruct (m (net w)). Qed.

Lemma in_net_grows φ {A} (m : M Network A) :
  obeys evolving_rel m -> obeys (grows φ) (in_net m).
Proof.
  intros Hm w. split.
  - specialize (Hm (net w)). unfold in_net.
    by destruct (m (net w)).
  - exists []. rewrite app_nil_r. split_and!; [apply in_net_log|done..].
Qed.

Lemma the_graph_evolves : obeys evolving_rel the_graph.
Proof. evolve. Qed.

Lemma relative_network_built_evolves node :
  obeys evolving_rel (relative_network_built node).
Proof. intros n. rewrite relative_network_built_pure. apply evolves_refl. Qed.

Lemma getitem_built_evolves node_name :
  obeys evolving_rel (getitem_built node_name).
Proof. intros n. rewrite getitem_built_pure. apply evolves_refl. Qed.

Lemma call_hook_grows {R} h (as_value : R -> value) rel_network body :
  obeys (grows (of_hook h)) (call_hook h as_value rel_network body).
Proof.
  intros w. unfold call_hook.
  pose proof (run_hook_evolves rel_network body (net w)) as Hev.
  destruct (run_hook rel_network body (net w)) as [n o]. simpl in *.
  split; [done|]. eexists [_; _]. split_and!.
  - by rewrite <- app_assoc.
  - by repeat constructor.
  - intros Hfrozen. by repeat constructor.
Qed.

Lemma emit_freeze_grows : obeys (grows (eq Freeze)) (emit Freeze).
Proof.
  intros w. split; [apply evolves_refl|]. exists [Freeze].
  split_and!; [done|by repeat constructor..].
Qed.

Lemma visit_grows h body node : obeys (grows (of_hook h)) (visit h body node).
Proof.
  apply obeys_bind; [apply _| |].
  - apply in_net_grows, relative_network_built_evolves.
  - intros rel. apply obeys_bind; [apply _|apply call_hook_grows|].
    intros _. apply obeys_ret, _.
Qed.

Lemma visit_all_grows h body :
  obeys (grows (of_hook h))
    (g <- in_net the_graph ;;
     for_each (Graph.architectural_tree_nodes_root_to_leaves g) (visit h body)).
Proof.
  apply obeys_bind; [apply _|apply in_net_grows, the_graph_evolves|].
  intros g. apply obeys_for_each; [apply _|]. intros node. apply visit_grows.
Qed.

Lemma freeze_phase_grows : obeys (grows (eq Freeze)) freeze_phase.
Proof.
  apply obeys_bind; [apply _|apply in_net_grows, freeze_evolves|].
  intros _. apply emit_freeze_grows.
Qed.

Lemma fetch_input_evolves g node input_key :
  obeys evolving_rel
    match Graph.input_edge_for_node g (name node) input_key with
    | None => raise TypeError
    | Some (node_name, from_key) =>
        other <- getitem_built node_name ;; get_variable other from_key
    end.
Proof.
  destruct (Graph.input_edge_for_node _ _ _) as [[node_name from_key]|].
  - apply obeys_bind; [apply _|apply getitem_built_evolves|].
    intros other. apply get_variable_evolves.
  - apply obeys_raise, _.
Qed.

Lemma compute_node_grows node : obeys (grows of_output) (compute_node node).
Proof.
  unfold compute_node.
  apply obeys_bind; [apply _| |].
  { apply in_net_grows, relative_network_built_evolves. }
  intros rel. apply obeys_bind; [apply _| |].
  { eapply grows_weaken; [|apply call_hook_grows]. intros e. by left. }
  intros input_keys. apply obeys_bind; [apply _| |].
  { apply obeys_collect; [apply _|]. intros input_key.
    apply in_net_grows. apply obeys_bind; [apply _|apply the_graph_evolves|].
    intros g. apply fetch_input_evolves. }
  intros ins. apply obeys_bind; [apply _| |].
  { apply in_net_grows, store_inputs_evolves. }
  intros _. apply obeys_bind; [apply _| |].
  { eapply grows_weaken; [|apply call_hook_grows]. intros e. by right. }
  intros output_res. apply obeys_assert, _.
Qed.

Lemma output_phase_grows : obeys (grows of_output) output_phase.
Proof.
  apply obeys_bind; [apply _|apply in_net_grows, the_graph_evolves|].
  intros g. apply obeys_for_each; [apply _|]. apply compute_node_grows.
Qed.

Lemma update_phase_grows :
  obeys (grows (of_hook MutateUpdateDeltas)) update_phase.
Proof. apply visit_all_grows. Qed.

Lemma build_phases_grows : obeys (grows (fun _ => True)) build_phases.
Proof.
  unfold build_phases.
  apply obeys_bind; [apply _| |intros _].
  { eapply grows_weaken; [|apply visit_all_grows]. done. }
  apply obeys_bind; [apply _| |intros _].
  { eapply grows_weaken; [|apply visit_all_grows]. done. }
  apply obeys_bind; [apply _| |intros _].
  { eapply grows_weaken; [|apply freeze_phase_grows]. done. }
  apply obeys_bind; [apply _| |intros _].
  { eapply grows_weaken; [|apply output_phase_grows]. done. }
  eapply grows_weaken; [|apply update_phase_grows]. done.
Qed.

(** The first loop of [build] gives every node of the list a state and
    touches nothing else. *)
Lemma allocate_loop nodes w :
  let r := for_each nodes (fun node =>
             in_net (modify (fun n =>
               set_node_state (<[name node := empty_node_state]> (node_state n))
                              n))) w in
  snd r = Ok tt
  ∧ log (fst r) = log w
  ∧ graph (net (fst r)) = graph (net w)
  ∧ root_node (net (fst r)) = root_node (net w)
  ∧ override_hyperparameters (net (fst r)) = override_hyperparameters (net w)
  ∧ default_hyperparameters (net (fst r)) = default_hyperparameters (net w)
  ∧ update_deltas (net (fst r)) = update_deltas (net w)
  ∧ ∀ m, is_Some (node_state (net w) !! m) ∨ m ∈ name <$> nodes ->
         is_Some (node_state (net (fst r)) !! m).
Proof.
  revert w. induction nodes as [|node nodes IH]; intros w; simpl.
  - split_and!; try done. intros m [?|Hin]; [done|].
    by apply elem_of_nil in Hin.
  - unfold bind at 1. simpl.
    destruct (IH {| net := set_node_state
                             (<[name node := empty_node_state]>
                                (node_state (net w))) (net w);
                    log := log w |})
      as (Hok & Hlog & Hg & Hroot & Hov & Hdef & Hud & Hst).
    split_and!; try done.
    intros m Hm. apply Hst. simpl.
    destruct (decide (m = name node)) as [->|Hne].
    + left. rewrite lookup_insert_eq. by eauto.
    + rewrite lookup_insert_ne by done.
      destruct Hm as [?|Hin]; [by left|right].
      apply elem_of_cons in Hin as [?|?]; done.
Qed.

Lemma allocate_states_spec w :
  let r := allocate_states w in
  snd r = Ok tt
  ∧ log (fst r) = log w
  ∧ graph (net (fst r)) = Some (Graph.init (root_node (net w)))
  ∧ root_node (net (fst r)) = root_node (net w)
  ∧ override_hyperparameters (net (fst r)) = override_hyperparameters (net w)
  ∧ default_hyperparameters (net (fst r)) = default_hyperparameters (net w)
  ∧ update_deltas (net (fst r)) = update_deltas (net w)
  ∧ ∀ node, node ∈ Graph.subtree (root_node (net w)) ->
            is_Some (node_state (net (fst r)) !! name node).
Proof.
  unfold allocate_states, bind at 1 2. simpl.
  match goal with
  | |- context [for_each ?nodes ?body ?w0] =>
      destruct (allocate_loop nodes w0)
        as (Hok & Hlog & Hg & Hroot & Hov & Hdef & Hud & Hst)
  end.
  split_and!; try done.
  intros node Hin. apply Hst. right. by apply list_elem_of_fmap_2.
Qed.

Lemma build_body_phases w :
  build_body w = build_phases (fst (allocate_states w)).
Proof.
  destruct (allocate_states_spec w) as (Hok & _).
  unfold build_body. fold build_phases.
  destruct (allocate_states w) as [w1 o] eqn:Hrun. simpl in *. subst o.
  by erewrite bind_ok.
Qed.

(** Whatever its outcome, [build] leaves a built network. *)
Lemma build_builds w : is_built (net (fst (build w))) = true.
Proof.
  unfold build. destruct (is_built (net w)) eqn:Hbuilt; [done|].
  rewrite build_body_phases.
  destruct (allocate_states_spec w) as (_ & _ & Hg & _).
  destruct (build_phases_grows (fst (allocate_states w))) as [Hev _].
  eapply evolves_built; [done|]. unfold is_built. by rewrite Hg.
Qed.

Lemma build_returns_when_built w :
  is_built (net w) = true -> build w = (w, Ok tt).
Proof. intros Hbuilt. unfold build. by rewrite Hbuilt. Qed.

(** C2.  [build] is idempotent: on a network that has its graph a call
    returns at once, so that neither the graph, the node state store or the
    update deltas change nor any hook runs; and after a first call, whatever
    its outcome, the network has its graph. *)
Theorem build_idempotent w :
  (is_built (net w) = true -> build w = (w, Ok tt))
  ∧ build (fst (build w)) = (fst (build w), Ok tt).
Proof.
  split; [apply build_returns_when_built|].
  apply build_returns_when_built, build_builds.
Qed.

Lemma build_idempotent_witness :
  build demo_run = (demo_run, Ok tt)
  ∧ build (fst (build demo_start)) = (fst (build demo_start), Ok tt).
Proof.
  split.
  - apply (proj1 (build_idempotent demo_run)). reflexivity.
  - apply (proj2 (build_idempotent demo_start)).
Defined.

(** ** The order of the phases *)

Lemma relative_network_built_ok node n n' rel :
  relative_network_built node n = (n', Ok rel) -> n' = n ∧ rel = node.
Proof.
  unfold relative_network_built, build_reentered, RelativeNetwork_init,
    bind, state_of, ret.
  destruct (is_built n); simpl; [|done].
  destruct (node_state n !! name node); simpl; [|done].
  by intros [= <- <-].
Qed.

Lemma visit_ok h body node w w' :
  visit h body node w = (w', Ok tt) ->
  ∃ es, log w' = log w ++ es ∧ hooks_run es = [(h, name node)].
Proof.
  unfold visit, bind at 1, in_net.
  destruct (relative_network_built node (net w)) as [n0 [rel|e]] eqn:Hrel;
    [|done].
  apply relative_network_built_ok in Hrel as [-> ->].
  unfold bind, call_hook. simpl.
  destruct (run_hook node (body node) (net w)) as [n1 [v|e]]; [|done].
  simpl. intros [= <-]. simpl.
  eexists [_; _]. split; [by rewrite <- app_assoc|done].
Qed.

Lemma for_each_visit_ok h body nodes w w' :
  for_each nodes (visit h body) w = (w', Ok tt) ->
  ∃ es, log w' = log w ++ es
        ∧ hooks_run es = (fun node => (h, name node)) <$> nodes.
Proof.
  revert w. induction nodes as [|node nodes IH]; intros w; simpl.
  - intros [= <-]. exists []. by rewrite app_nil_r.
  - unfold bind at 1.
    destruct (visit h body node w) as [w1 [[]|e]] eqn:Hvisit; [|done].
    intros Hrest.
    apply visit_ok in Hvisit as (es1 & Hlog1 & Hrun1).
    apply IH in Hrest as (es2 & Hlog2 & Hrun2).
    exists (es1 ++ es2). split.
    + by rewrite Hlog2, Hlog1, app_assoc.
    + unfold hooks_run in *. by rewrite omap_app, Hrun1, Hrun2.
Qed.

Lemma in_net_the_graph w g :
  graph (net w) = Some g -> in_net the_graph w = (w, Ok g).
Proof. intros Hg. unfold in_net, the_graph. rewrite Hg. by destruct w. Qed.

(** A phase that visits every node of the tree: its events are those of its
    hook, and when it ends without an exception the hook has run on every
    node, root to leaves. *)
Lemma visit_all_spec h body w g :
  graph (net w) = Some g ->
  let r := (g <- in_net the_graph ;;
            for_each (Graph.architectural_tree_nodes_root_to_leaves g)
                     (visit h body)) w in
  evolves (net w) (net (fst r))
  ∧ ∃ es, log (fst r) = log w ++ es
          ∧ Forall (of_hook h) es
          ∧ (shows_mutable (net w) = false -> Forall enters_frozen es)
          ∧ (snd r = Ok tt ->
             hooks_run es
             = (fun node => (h, name node)) <$> Graph.subtree (graph_root g)).
Proof.
  intros Hg r.
  destruct (visit_all_grows h body w) as [Hev (es & Hlog & Hφ & Hfr)].
  fold r in Hev, Hlog. split; [done|]. exists es. split_and!; try done.
  intros Hok. subst r.
  erewrite bind_ok in Hlog, Hok by by apply in_net_the_graph.
  match type of Hok with
  | snd (for_each ?nodes ?b ?w0) = _ =>
      destruct (for_each nodes b w0) as [w' o] eqn:Hloop
  end.
  simpl in *. subst o.
  apply for_each_visit_ok in Hloop as (es' & Hlog' & Hrun).
  rewrite Hlog in Hlog'.
  by apply app_inv_head in Hlog' as ->.
Qed.

Lemma freeze_phase_spec w g :
  graph (net w) = Some g ->
  freeze_phase w
  = ({| net := set_graph (Some (Graph.freeze g)) (net w);
        log := log w ++ [Freeze] |}, Ok tt).
Proof.
  intros Hg. unfold freeze_phase, bind, in_net, on_graph. by rewrite Hg.
Qed.

Lemma later_phases_grows :
  obeys (grows of_later_phase) (output_phase ;;; update_phase).
Proof.
  apply obeys_bind; [apply _| |intros _].
  - eapply grows_weaken; [|apply output_phase_grows]. intros e. by left.
  - eapply grows_weaken; [|apply update_phase_grows]. intros e. by right.
Qed.

Lemma of_hook_not_freeze h es : Forall (of_hook h) es -> Freeze ∉ es.
Proof.
  intros Hes Hin. rewrite Forall_forall in Hes. by apply (Hes _ Hin).
Qed.

(** On a frozen graph every edit of the dependencies fails and changes
    nothing. *)
Lemma frozen_network_rejects_edits n self :
  shows_mutable n = false ->
  (∀ from_name to_name from_key to_key,
     add_dependency self from_name to_name from_key to_key n
     = (n, Raise (Exception "GraphMutationAfterFreeze")))
  ∧ (∀ from_name to_name,
       remove_dependency self from_name to_name n
       = (n, Raise (Exception "GraphMutationAfterFreeze"))).
Proof.
  intros (g & Hg & Hfrozen)%shows_mutable_false.
  destruct (frozen_graph_rejects_edits g Hfrozen) as [Hadd Hremove].
  unfold add_dependency, remove_dependency, on_graph. rewrite Hg.
  split; intros; [rewrite Hadd|rewrite Hremove];
    destruct n; simpl in *; by subst.
Qed.

(** The graph a hook finds frozen is the graph it leaves. *)
Lemma run_hook_keeps_frozen_graph {R} self (h : hook R) n :
  shows_mutable n = false -> graph (fst (run_hook self h n)) = graph n.
Proof.
  intros Hfrozen.
  by destruct (evolves_frozen _ _ (run_hook_evolves self h n) Hfrozen).
Qed.

(** C3.  In a run of [build] the graph is frozen after the
    [init_long_range_dependencies] and [init_state] hooks of every node have
    run and before any other hook is entered: the events of the run are
    those of the two initialisation phases, on every node root to leaves,
    then the freeze, then hooks of the later phases only, each entered on a
    frozen graph (or the run failed in an initialisation hook and never froze
    the graph).  On a frozen graph every attempt to add or remove a
    dependency fails, and whatever a hook does leaves the graph as it is. *)
Theorem freeze_between_init_and_output w :
  is_built (net w) = false ->
  let nodes := Graph.subtree (root_node (net w)) in
  let r := build w in
  (∃ events,
     log (fst r) = log w ++ events
     ∧ (((Freeze ∉ events) ∧ Forall of_init events
         ∧ is_Some (failure (snd r)))
        ∨ ∃ before after,
            events = before ++ Freeze :: after
            ∧ Forall of_init before
            ∧ hooks_run before
              = ((fun node => (InitLongRangeDependencies, name node)) <$> nodes)
                ++ ((fun node => (InitState, name node)) <$> nodes)
            ∧ Forall (fun e => of_later_phase e ∧ enters_frozen e) after
            ∧ shows_mutable (net (fst r)) = false))
  ∧ ∀ n self,
      shows_mutable n = false ->
      (∀ from_name to_name from_key to_key,
         add_dependency self from_name to_name from_key to_key n
         = (n, Raise (Exception "GraphMutationAfterFreeze")))
      ∧ (∀ from_name to_name,
           remove_dependency self from_name to_name n
           = (n, Raise (Exception "GraphMutationAfterFreeze")))
      ∧ (∀ h : hook value, graph (fst (run_hook self h n)) = graph n).
Proof.
  intros Hunbuilt nodes r. split.
  2: { intros n self Hfrozen.
       destruct (frozen_network_rejects_edits n self Hfrozen) as [Hadd Hrm].
       split_and!; [done|done|].
       intros h. by apply run_hook_keeps_frozen_graph. }
  subst r. unfold build. rewrite Hunbuilt. rewrite build_body_phases.
  destruct (allocate_states_spec w) as (_ & Hlog1 & Hg1 & _).
  set (w1 := fst (allocate_states w)) in *. rewrite <- Hlog1.
  unfold build_phases.
  (* the long-range dependencies *)
  destruct (visit_all_spec InitLongRangeDependencies
              init_long_range_dependencies w1 _ Hg1)
    as (Hev2 & es2 & Hlog2 & Hφ2 & _ & Hrun2).
  fold init_dependencies_phase in Hev2, Hlog2, Hrun2.
  destruct (init_dependencies_phase w1) as [w2 [[]|e2]] eqn:Hphase2;
    simpl in *.
  2: { erewrite bind_raise by done. exists es2. split; [done|]. left.
       split_and!; [by eapply of_hook_not_freeze| |by eauto].
       eapply Forall_impl; [done|]. intros e. by left. }
  erewrite bind_ok by done.
  destruct (ev_graph _ _ Hev2 _ Hg1) as (g2 & Hg2 & Hroot2 & _).
  (* the states *)
  destruct (visit_all_spec InitState init_state w2 _ Hg2)
    as (Hev3 & es3 & Hlog3 & Hφ3 & _ & Hrun3).
  fold init_state_phase in Hev3, Hlog3, Hrun3.
  destruct (init_state_phase w2) as [w3 [[]|e3]] eqn:Hphase3; simpl in *.
  2: { erewrite bind_raise by done. exists (es2 ++ es3).
       split; [simpl; by rewrite Hlog3, Hlog2, app_assoc|]. left.
       split_and!; [| |by eauto].
       - intros [Hin|Hin]%elem_of_app;
           [by apply (of_hook_not_freeze _ _ Hφ2)
           |by apply (of_hook_not_freeze _ _ Hφ3)].
       - apply Forall_app. split; (eapply Forall_impl; [done|]); intros e;
           [by left|by right]. }
  erewrite bind_ok by done.
  destruct (ev_graph _ _ Hev3 _ Hg2) as (g3 & Hg3 & Hroot3 & _).
  (* the freeze *)
  erewrite bind_ok by by apply freeze_phase_spec.
  set (w4 := {| net := set_graph (Some (Graph.freeze g3)) (net w3);
                log := log w3 ++ [Freeze] |}).
  assert (Hfrozen4 : shows_mutable (net w4) = false) by done.
  (* the outputs and the updates *)
  destruct (later_phases_grows w4) as [Hev5 (es5 & Hlog5 & Hφ5 & Hfr5)].
  exists ((es2 ++ es3) ++ Freeze :: es5). split.
  { rewrite Hlog5. unfold w4. cbn [log]. rewrite Hlog3, Hlog2.
    by rewrite <- !app_assoc. }
  right. exists (es2 ++ es3), es5. split_and!.
  - done.
  - apply Forall_app. split; (eapply Forall_impl; [done|]); intros e;
      [by left|by right].
  - unfold hooks_run in *. rewrite omap_app, Hrun2, Hrun3 by done.
    by rewrite Hroot2.
  - specialize (Hfr5 Hfrozen4). rewrite Forall_forall in Hφ5, Hfr5.
    apply Forall_forall. by auto.
  - by eapply evolves_frozen.
Qed.

Lemma freeze_between_init_and_output_witness :
  ∃ before after,
    log (fst (build demo_start)) = before ++ Freeze :: after
    ∧ hooks_run before
      = [(InitLongRangeDependencies, "model"); (InitLongRangeDependencies, "seq");
         (InitLongRangeDependencies, "i"); (InitLongRangeDependencies, "lm");
         (InitState, "model"); (InitState, "seq"); (InitState, "i");
         (InitState, "lm")]
    ∧ Forall (fun e => of_later_phase e ∧ enters_frozen e) after.
Proof.
  destruct (freeze_between_init_and_output demo_start eq_refl)
    as [(events & Hlog & [(Hnone & _)|Hsplit]) _].
  - exfalso. apply Hnone.
    assert (Hin : Freeze ∈ log (fst (build demo_start))).
    { vm_compute. do 16 apply list_elem_of_further. apply list_elem_of_here. }
    rewrite Hlog in Hin. simpl in Hin. exact Hin.
  - destruct Hsplit as (before & after & -> & _ & Hrun & Hafter & _).
    exists before, after. split_and!; [exact Hlog|exact Hrun|exact Hafter].
Defined.

(** ** The result of an output-computation hook *)

#[local] Instance fatal_return_composable : Composable fatal_return.
Proof.
  split.
  - intros w o. exists []. rewrite app_nil_r. split; [done|].
    intros i e Hi. by rewrite lookup_nil in Hi.
  - intros w w1 w2 o (es1 & Hlog1 & Hes1) (es2 & Hlog2 & Hes2).
    exists (es1 ++ es2). split; [by rewrite Hlog2, Hlog1, app_assoc|].
    intros i e Hi Hbad.
    destruct (decide (i < length es1)) as [Hlt|Hge].
    + rewrite lookup_app_l in Hi by done.
      by destruct (Hes1 i e Hi Hbad) as [_ ?].
    + rewrite lookup_app_r in Hi by lia.
      destruct (Hes2 _ e Hi Hbad) as [Hlast ->].
      split; [|done]. rewrite length_app. lia.
Qed.

Lemma grows_fatal_return (φ : event -> Prop) {A} (m : M Run A) :
  (∀ e, φ e -> returned_a_value e = false) ->
  obeys (grows φ) m -> obeys fatal_return m.
Proof.
  intros Hφ Hm w. destruct (Hm w) as [_ (es & Hlog & Hes & _)].
  exists es. split; [done|]. intros i e Hi Hbad.
  apply list_elem_of_lookup_2 in Hi. rewrite Forall_forall in Hes.
  specialize (Hφ e (Hes e Hi)). congruence.
Qed.

Lemma in_net_fatal_return {A} (m : M Network A) :
  obeys fatal_return (in_net m).
Proof.
  intros w. exists []. rewrite app_nil_r. split; [apply in_net_log|].
  intros i e Hi. by rewrite lookup_nil in Hi.
Qed.

Lemma other_hook_fatal_return h e :
  h ≠ ComputeOutput -> of_hook h e -> returned_a_value e = false.
Proof.
  intros Hne Hof. destruct e as [h' node b|h' node [v|e]|]; simpl in *;
    try done.
  all: subst h'; by destruct h.
Qed.

Lemma output_check_fatal_return rel_network body :
  obeys fatal_return
    (output_res <- call_hook ComputeOutput id rel_network body ;;
     assert (is_None output_res)).
Proof.
  intros w. unfold bind, call_hook.
  destruct (run_hook rel_network body (net w)) as [n [v|e]]; simpl.
  - eexists [_; _]. destruct (is_None v) eqn:Hv; simpl.
    + split; [by rewrite <- app_assoc|].
      intros [|[|i]] e; simpl; intros [= <-]; simpl; by rewrite ?Hv.
    + split; [by rewrite <- app_assoc|].
      intros [|[|i]] e; simpl; intros [= <-]; simpl; done.
  - eexists [_; _]. split; [by rewrite <- app_assoc|].
    intros [|[|i]] e'; simpl; intros [= <-]; simpl; done.
Qed.

Lemma compute_node_fatal_return node : obeys fatal_return (compute_node node).
Proof.
  unfold compute_node.
  apply obeys_bind; [apply _|apply in_net_fatal_return|].
  intros rel. apply obeys_bind; [apply _| |].
  { eapply grows_fatal_return; [|apply call_hook_grows].
    intros e. by apply other_hook_fatal_return. }
  intros input_keys. apply obeys_bind; [apply _| |].
  { apply obeys_collect; [apply _|]. intros input_key.
    apply in_net_fatal_return. }
  intros ins. apply obeys_bind; [apply _|apply in_net_fatal_return|].
  intros _. apply output_check_fatal_return.
Qed.

Lemma build_fatal_return : obeys fatal_return build.
Proof.
  intros w. unfold build. destruct (is_built (net w)); [apply comp_refl|].
  revert w. change (obeys fatal_return build_body). unfold build_body.
  apply obeys_bind; [apply _| |intros _].
  { intros w. destruct (allocate_states_spec w) as (_ & Hlog & _).
    exists []. rewrite app_nil_r. split; [done|].
    intros i e Hi. by rewrite lookup_nil in Hi. }
  apply obeys_bind; [apply _| |intros _].
  { eapply grows_fatal_return; [|apply visit_all_grows].
    intros e. by apply other_hook_fatal_return. }
  apply obeys_bind; [apply _| |intros _].
  { eapply grows_fatal_return; [|apply visit_all_grows].
    intros e. by apply other_hook_fatal_return. }
  apply obeys_bind; [apply _| |intros _].
  { eapply grows_fatal_return; [|apply freeze_phase_grows]. by intros e <-. }
  apply obeys_bind; [apply _| |intros _].
  { apply obeys_bind; [apply _|apply in_net_fatal_return|]. intros g.
    apply obeys_for_each; [apply _|]. apply compute_node_fatal_return. }
  eapply grows_fatal_return; [|apply update_phase_grows].
  intros e. by apply other_hook_fatal_return.
Qed.

(** C9.  When, in a run of [build], the [compute_output] hook of a node
    returns something else than [None], nothing happens after it and [build]
    ends in the failed assertion. *)
Theorem output_must_be_none w i node v :
  log (fst (build w)) !! (length (log w) + i)
  = Some (Exit ComputeOutput node (Ok v)) ->
  v ≠ VNone ->
  snd (build w) = Raise AssertionError
  ∧ S (length (log w) + i) = length (log (fst (build w))).
Proof.
  intros Hi Hv. destruct (build_fatal_return w) as (es & Hlog & Hes).
  rewrite Hlog in Hi |- *. rewrite lookup_app_r in Hi by lia.
  replace (length (log w) + i - length (log w)) with i in Hi by lia.
  destruct (Hes i _ Hi) as [Hlast Hfail].
  { simpl. by destruct v. }
  split.
  - by destruct (snd (build w)); simplify_eq/=.
  - rewrite length_app. lia.
Qed.

Lemma output_must_be_none_witness :
  snd (build returning_start) = Raise AssertionError
  ∧ 9 = length (log (fst (build returning_start))).
Proof.
  apply (output_must_be_none returning_start 8 "double" (VInt 2)).
  - vm_compute; reflexivity.
  - discriminate.
Defined.

(** ** The states of a built network *)

Lemma Node_children_ind (P : Node -> Prop) :
  (∀ n, Forall P (architecture_children n) -> P n) -> ∀ n, P n.
Proof.
  intros step. fix IH 1. intros n. apply step.
  destruct n as [nm cs hp ik lr st co mu]. simpl.
  induction cs as [|c cs IHcs]; constructor; [apply IH|apply IHcs].
Qed.

(** The ancestors the graph finds for a node are nodes of the tree. *)
Lemma ancestors_below_in_tree target n :
  ∀ above found,
    Graph.ancestors_below target above n = Some found ->
    ∀ x, x ∈ found -> x ∈ above ∨ x ∈ Graph.subtree n.
Proof.
  induction n as [n IHn] using Node_children_ind.
  intros above found. destruct n as [nm cs hp ik lr st co mu]. simpl in *.
  destruct (String.eqb nm target).
  { intros [= <-] x Hx. by left. }
  set (whole := mkNode nm cs hp ik lr st co mu).
  assert (Hcs : ∀ cs',
    Forall (fun c => ∀ above found,
              Graph.ancestors_below target above c = Some found ->
              ∀ x, x ∈ found -> x ∈ above ∨ x ∈ Graph.subtree c) cs' ->
    (fix first_of (cs : list Node) : option (list Node) :=
       match cs with
       | [] => None
       | c :: cs' =>
           match Graph.ancestors_below target (whole :: above) c with
           | Some found => Some found
           | None => first_of cs'
           end
       end) cs' = Some found ->
    ∀ x, x ∈ found ->
         x ∈ above ∨ x ∈ whole :: flat_map Graph.subtree cs').
  { intros cs' Hall. induction Hall as [|c cs' Hc _ IH]; [done|].
    destruct (Graph.ancestors_below target (whole :: above) c) as [l|] eqn:Hl.
    - intros [= ->] x Hx.
      destruct (Hc _ _ Hl x Hx) as [Hin|Hin].
      + apply elem_of_cons in Hin as [->|Hin]; [right; by left|by left].
      + right. right. simpl. apply elem_of_app. by left.
    - intros Hrest x Hx. destruct (IH Hrest x Hx) as [?|Hin]; [by left|].
      right. apply elem_of_cons in Hin as [->|Hin]; [by left|].
      right. simpl. apply elem_of_app. by right. }
  by apply Hcs.
Qed.

Lemma chain_in_tree g self x :
  self ∈ Graph.subtree (graph_root g) ->
  x ∈ chain_of g self -> x ∈ Graph.subtree (graph_root g).
Proof.
  intros Hself [->|Hx]%elem_of_cons; [done|].
  unfold Graph.architecture_ancestors in Hx.
  destruct (Graph.ancestors_below _ _ _) as [found|] eqn:Hfound; simpl in Hx.
  - destruct (ancestors_below_in_tree _ _ _ _ Hfound x Hx) as [Hin|Hin];
      [|done].
    by apply elem_of_nil in Hin.
  - by apply elem_of_nil in Hx.
Qed.

(** After [build] on a network that had no graph, whatever the outcome: the
    network has the graph of its root node, its override and default maps
    are those it was made with, and every node of the tree has its state. *)
Lemma build_allocates w :
  is_built (net w) = false ->
  let n := net (fst (build w)) in
  (∃ g, graph n = Some g ∧ graph_root g = root_node (net w))
  ∧ override_hyperparameters n = override_hyperparameters (net w)
  ∧ default_hyperparameters n = default_hyperparameters (net w)
  ∧ ∀ node, node ∈ Graph.subtree (root_node (net w)) ->
            is_Some (node_state n !! name node).
Proof.
  intros Hunbuilt. unfold build. rewrite Hunbuilt. rewrite build_body_phases.
  destruct (allocate_states_spec w)
    as (_ & _ & Hg & _ & Hov & Hdef & _ & Hst).
  destruct (build_phases_grows (fst (allocate_states w))) as [Hev _].
  simpl. split_and!.
  - destruct (ev_graph _ _ Hev _ Hg) as (g' & Hg' & Hroot & _). by eauto.
  - by rewrite (ev_override _ _ Hev).
  - by rewrite (ev_default _ _ Hev).
  - intros node Hin. destruct (Hst node Hin) as [st Hnode].
    destruct (ev_states _ _ Hev _ _ Hnode) as (st' & -> & _). by eauto.
Qed.

Lemma build_gives_chain_states w self g :
  is_built (net w) = false ->
  self ∈ Graph.subtree (root_node (net w)) ->
  graph (net (fst (build w))) = Some g ->
  chain_has_state (net (fst (build w))) (chain_of g self).
Proof.
  intros Hunbuilt Hself Hg.
  destruct (build_allocates w Hunbuilt) as ((g' & Hg' & Hroot) & _ & _ & Hst).
  simplify_eq. apply Forall_forall. intros x Hx. apply Hst.
  rewrite <- Hroot in Hself |- *. by eapply chain_in_tree.
Qed.

(** On the network [build] leaves, and for the view of any node of the
    tree, resolution is the tiered search. *)
Corollary find_hyperparameter_after_build w self keys default_value g :
  is_built (net w) = false ->
  self ∈ Graph.subtree (root_node (net w)) ->
  graph (net (fst (build w))) = Some g ->
  find_hyperparameter self keys default_value (net (fst (build w)))
  = (net (fst (build w)),
     resolve (net (fst (build w))) g self keys default_value).
Proof.
  intros Hunbuilt Hself Hg. apply find_hyperparameter_resolves; [done|].
  by apply build_gives_chain_states.
Qed.

(** ** The default of the global default map *)

(** C10.  A network made without [default_hyperparameters] has the global
    default map [{"batch_axis": 0}], and keeps it when built; so, on the view
    of any node of the tree, [find_hyperparameter(["batch_axis"])] does not
    raise, and returns 0 when neither the override map, the hierarchy nor the
    caller gives a value.  A map that is passed is taken as it is. *)
Theorem default_batch_axis root overrides :
  let built defaults :=
    net (fst (build {| net := Network_init root overrides defaults;
                       log := [] |})) in
  default_hyperparameters (Network_init root overrides None)
  = {[ "batch_axis" := VInt 0 ]}
  ∧ default_hyperparameters (built None) = {[ "batch_axis" := VInt 0 ]}
  ∧ (∀ self default_value,
       self ∈ Graph.subtree root ->
       ∃ v, find_hyperparameter self ["batch_axis"] default_value (built None)
            = (built None, Ok v))
  ∧ (∀ self g,
       self ∈ Graph.subtree root ->
       graph (built None) = Some g ->
       override_hyperparameters (built None) !! "batch_axis" = None ->
       hierarchy_tier (built None) ["batch_axis"] [] (chain_of g self) = None ->
       find_hyperparameter self ["batch_axis"] None (built None)
       = (built None, Ok (VInt 0)))
  ∧ ∀ d,
      default_hyperparameters (Network_init root overrides (Some d)) = d
      ∧ default_hyperparameters (built (Some d)) = d.
Proof.
  intros built.
  assert (Hbuilt : ∀ defaults,
    (∃ g, graph (built defaults) = Some g)
    ∧ default_hyperparameters (built defaults)
      = default_hyperparameters (Network_init root overrides defaults)
    ∧ ∀ self g, self ∈ Graph.subtree root ->
                graph (built defaults) = Some g ->
                chain_has_state (built defaults) (chain_of g self)).
  { intros defaults.
    set (w := {| net := Network_init root overrides defaults; log := [] |}).
    destruct (build_allocates w eq_refl) as ((g & Hg & _) & _ & Hdef & _).
    split_and!; [by eauto|done|].
    intros self g' Hself Hg'. by apply (build_gives_chain_states w). }
  destruct (Hbuilt None) as ((g & Hg) & Hdef & Hchain).
  change (default_hyperparameters (built None) = {[ "batch_axis" := VInt 0 ]})
    in Hdef.
  split_and!.
  - done.
  - done.
  - intros self default_value Hself.
    rewrite (find_hyperparameter_resolves _ g) by auto.
    unfold resolve. cbn [first_present]. rewrite Hdef, lookup_singleton_eq.
    repeat case_match; by eauto.
  - intros self g' Hself Hg' Hoverride Hhierarchy.
    rewrite (find_hyperparameter_resolves _ g') by auto.
    unfold resolve. cbn [first_present].
    by rewrite Hoverride, Hhierarchy, Hdef, lookup_singleton_eq.
  - intros d. split; [done|]. by destruct (Hbuilt (Some d)) as (_ & -> & _).
Qed.

Lemma default_batch_axis_witness :
  find_hyperparameter linear_mapping_node ["batch_axis"] None demo
  = (demo, Ok (VInt 0)).
Proof.
  destruct (default_batch_axis model_node None) as (_ & _ & _ & H & _).
  apply (H linear_mapping_node demo_graph).
  - do 3 apply list_elem_of_further. apply list_elem_of_here.
  - vm_compute; reflexivity.
  - vm_compute; reflexivity.
  - vm_compute; reflexivity.
Defined.

(** ** Hooks and the network they run on *)

(** A hook that starts on a built network leaves it built, so the [build()]
    that [relative_network] and [__getitem__] begin with returns at once
    while the network is being built. *)
Lemma run_hook_keeps_built {R} self (h : hook R) n :
  is_built n = true -> is_built (fst (run_hook self h n)) = true.
Proof. apply evolves_built, run_hook_evolves. Qed.

Lemma build_reentered_returns n :
  is_built n = true -> build_reentered n = (n, Ok tt).
Proof. intros Hbuilt. unfold build_reentered. by rewrite Hbuilt. Qed.

Lemma relative_network_when_built node w :
  is_built (net w) = true ->
  relative_network node w = in_net (relative_network_built node) w.
Proof.
  intros Hbuilt. unfold relative_network, relative_network_built.
  erewrite bind_ok by by apply build_returns_when_built.
  unfold in_net, bind. by rewrite build_reentered_returns.
Qed.

(** Once a variable is created under a name, no hook brings the node back
    to a state where the name can be created again. *)
Lemma create_variable_again_after_hook {R} self x kwargs kwargs' n n1 v
    view (h : hook R) :
  create_variable self x kwargs n = (n1, Ok v) ->
  create_variable self x kwargs' (fst (run_hook view h n1))
  = (fst (run_hook view h n1), Raise AssertionError).
Proof.
  intros (st1 & Hst1 & _ & Horig)%create_variable_stored.
  pose proof (run_hook_evolves view h n1) as Hev.
  destruct (ev_states _ _ Hev _ _ Hst1) as (st2 & Hst2 & Hsub).
  assert (Hin : has_key (original_variables st2) x = true).
  { apply has_key_true. exists v. by eapply lookup_weaken. }
  unfold create_variable, bind, state_of. rewrite Hst2, Hin.
  by destruct (has_key (current_variables st2) x).
Qed.

(** * Further properties of the view *)

(** ** Auxiliary data *)

(** Reading a map at the key it was just written at. *)
Ltac look_up := repeat first [rewrite lookup_insert_eq | progress simpl].

(** X1.  [set_data] stores a value under a key that is neither a data key
    nor the name of a current variable of the node, and [get_data] then
    returns it; what the other keys hold is as before, and the key cannot be
    set a second time.  On a key that is taken [set_data] fails and changes
    nothing. *)
Theorem set_data_round_trip self key v n st :
  node_state n !! name self = Some st ->
  (additional_data st !! key = None ->
   current_variables st !! key = None ->
   ∃ n',
     set_data self key v n = (n', Ok tt)
     ∧ get_data self key n' = (n', Ok v)
     ∧ (∀ other, other ≠ key ->
          snd (get_data self other n') = snd (get_data self other n))
     ∧ (∀ x, snd (get_variable self x n') = snd (get_variable self x n))
     ∧ ∀ v', set_data self key v' n' = (n', Raise AssertionError))
  ∧ (is_Some (additional_data st !! key)
     ∨ is_Some (current_variables st !! key) ->
     set_data self key v n = (n, Raise AssertionError)).
Proof.
  intros Hst. split.
  - intros Hdata Hcur. eexists. split_and!.
    + unfold set_data, bind, state_of. rewrite Hst.
      apply has_key_false in Hdata, Hcur. rewrite Hdata, Hcur. simpl.
      reflexivity.
    + unfold get_data, bind, state_of. by look_up.
    + intros other Hne. unfold get_data, bind, state_of. look_up.
      rewrite Hst. simpl. rewrite lookup_insert_ne by done.
      by destruct (additional_data st !! other).
    + intros x. unfold get_variable, bind, state_of. look_up.
      rewrite Hst. simpl. by destruct (current_variables st !! x).
    + intros v'. unfold set_data, bind, state_of. look_up.
      by rewrite has_key_insert.
  - intros Hin. unfold set_data, bind, state_of. rewrite Hst.
    destruct Hin as [Hin|Hin]; apply has_key_true in Hin.
    + by rewrite Hin.
    + rewrite Hin. by destruct (has_key (additional_data st) key).
Qed.

Lemma set_data_round_trip_witness :
  ∃ n', set_data linear_mapping_node "mask" (VInt 1) demo = (n', Ok tt)
        ∧ get_data linear_mapping_node "mask" n' = (n', Ok (VInt 1))
        ∧ set_data linear_mapping_node "mask" (VInt 2) n'
          = (n', Raise AssertionError).
Proof.
  destruct (set_data_round_trip linear_mapping_node "mask" (VInt 1) demo
              (default empty_node_state (node_state demo !! "lm")))
    as [Hfresh _].
  { vm_compute; reflexivity. }
  destruct Hfresh as (n' & Hset & Hget & _ & _ & Hagain).
  { vm_compute; reflexivity. }
  { vm_compute; reflexivity. }
  exists n'. split_and!; [exact Hset|exact Hget|apply Hagain].
Defined.

(** X2.  The check between data keys and variable names goes one way only:
    [set_data] refuses the name of a variable the node has created, but
    [create_variable] does not look at [additional_data], so that after
    [set_data] a variable of the same name is created and the name is both a
    data key and a variable. *)
Theorem data_key_and_variable_name self key v kwargs n st :
  node_state n !! name self = Some st ->
  additional_data st !! key = None ->
  current_variables st !! key = None ->
  original_variables st !! key = None ->
  (∃ n1 n2 variable,
     set_data self key v n = (n1, Ok tt)
     ∧ create_variable self key kwargs n1 = (n2, Ok variable)
     ∧ get_data self key n2 = (n2, Ok v)
     ∧ get_variable self key n2 = (n2, Ok variable))
  ∧ (∃ n1 variable,
       create_variable self key kwargs n = (n1, Ok variable)
       ∧ set_data self key v n1 = (n1, Raise AssertionError)).
Proof.
  intros Hst Hdata Hcur Horig.
  apply has_key_false in Hdata, Hcur, Horig. split.
  - eexists _, _, _. split_and!.
    + unfold set_data, bind, state_of. rewrite Hst, Hdata, Hcur. simpl.
      reflexivity.
    + unfold create_variable, bind, state_of. look_up.
      rewrite Hcur, Horig. simpl. reflexivity.
    + unfold get_data, bind, state_of. by look_up.
    + unfold get_variable, bind, state_of. by look_up.
  - eexists _, _. split.
    + unfold create_variable, bind, state_of. rewrite Hst, Hcur, Horig.
      simpl. reflexivity.
    + unfold set_data, bind, state_of. look_up. rewrite Hdata. simpl.
      by rewrite has_key_insert.
Qed.

Lemma data_key_and_variable_name_witness :
  ∃ n1 n2 variable,
    set_data input_node "mean" (VInt 0) demo = (n1, Ok tt)
    ∧ create_variable input_node "mean" [] n1 = (n2, Ok variable)
    ∧ get_data input_node "mean" n2 = (n2, Ok (VInt 0))
    ∧ get_variable input_node "mean" n2 = (n2, Ok variable).
Proof.
  apply (data_key_and_variable_name input_node "mean" (VInt 0) [] demo
           (default empty_node_state (node_state demo !! "i")));
    vm_compute; reflexivity.
Defined.

(** ** Reading variables *)

(** X3.  [get_variable] reads [current_variables]: after [create_variable]
    it returns the created variable, after [replace_variable] the
    replacement, and for a name the node has no current variable of it
    raises [KeyError] and changes nothing. *)
Theorem get_variable_round_trip self x kwargs new_variable n n1 v :
  create_variable self x kwargs n = (n1, Ok v) ->
  get_variable self x n1 = (n1, Ok v)
  ∧ (∃ n2, replace_variable self x new_variable n1 = (n2, Ok new_variable)
           ∧ get_variable self x n2 = (n2, Ok new_variable))
  ∧ ∀ y st1, node_state n1 !! name self = Some st1 ->
             current_variables st1 !! y = None ->
             get_variable self y n1 = (n1, Raise (KeyError y)).
Proof.
  intros (st1 & Hst1 & Hcur & Horig)%create_variable_stored.
  assert (Hin : has_key (original_variables st1) x = true).
  { apply has_key_true. by eauto. }
  split_and!.
  - unfold get_variable, bind, state_of. by rewrite Hst1, Hcur.
  - eexists. split.
    + unfold replace_variable, bind, state_of. rewrite Hst1, Hin. simpl.
      reflexivity.
    + unfold get_variable, bind, state_of. by look_up.
  - intros y st1' Hst1' Hnone. simplify_eq.
    unfold get_variable, bind, state_of. by rewrite Hst1, Hnone.
Qed.

Lemma get_variable_round_trip_witness :
  ∃ v, create_variable model_node "loss" [] demo = (demo_loss, Ok v)
       ∧ get_variable model_node "loss" demo_loss = (demo_loss, Ok v).
Proof.
  eexists. split; [vm_compute; reflexivity|].
  apply (get_variable_round_trip model_node "loss" []
           {| vw_name := "other"; vw_relative_network := "model";
              vw_kwargs := [] |} demo).
  vm_compute; reflexivity.
Defined.

(** ** Setting hyperparameters *)

(** X4.  [set_hyperparameter] writes one value: afterwards the node's
    [set_hyperparameters] holds it for the target node under the key; every
    other entry, also those of other keys set for the same target before, is
    as it was, and so are the variables, the data and the other nodes. *)
Theorem set_hyperparameter_frame self node_name key v n st :
  node_state n !! name self = Some st ->
  ∃ n' st',
    set_hyperparameter self node_name key v n = (n', Ok tt)
    ∧ node_state n' !! name self = Some st'
    ∧ set_hyperparameters st' !! node_name ≫= (.!! key) = Some v
    ∧ (∀ m k, (m, k) ≠ (node_name, key) ->
         set_hyperparameters st' !! m ≫= (.!! k)
         = set_hyperparameters st !! m ≫= (.!! k))
    ∧ current_variables st' = current_variables st
    ∧ original_variables st' = original_variables st
    ∧ additional_data st' = additional_data st
    ∧ inputs st' = inputs st
    ∧ (∀ m, m ≠ name self -> node_state n' !! m = node_state n !! m)
    ∧ graph n' = graph n
    ∧ override_hyperparameters n' = override_hyperparameters n
    ∧ default_hyperparameters n' = default_hyperparameters n.
Proof.
  intros Hst. eexists _, _. split_and!.
  - unfold set_hyperparameter, bind, state_of. rewrite Hst. simpl.
    reflexivity.
  - simpl. by rewrite lookup_insert_eq.
  - simpl. rewrite lookup_insert_eq. simpl. by rewrite lookup_insert_eq.
  - intros m k Hne. simpl. unfold has_key.
    destruct (decide (m = node_name)) as [->|Hm].
    + rewrite lookup_insert_eq. simpl.
      assert (Hk : k ≠ key) by congruence.
      rewrite lookup_insert_ne by done.
      destruct (set_hyperparameters st !! node_name) as [hps|] eqn:Hhps;
        simpl; [by rewrite Hhps|].
      by rewrite lookup_insert_eq.
    + rewrite lookup_insert_ne by done.
      destruct (set_hyperparameters st !! node_name); [done|].
      by rewrite lookup_insert_ne.
  - done.
  - done.
  - done.
  - done.
  - intros m Hne. simpl. by rewrite lookup_insert_ne.
  - done.
  - done.
  - done.
Qed.

Lemma set_hyperparameter_frame_witness :
  ∃ n' st',
    set_hyperparameter model_node "lm" "inits" (VSeq []) demo = (n', Ok tt)
    ∧ node_state n' !! "model" = Some st'
    ∧ set_hyperparameters st' !! "lm" ≫= (.!! "inits") = Some (VSeq [])
    ∧ set_hyperparameters st' !! "lm" ≫= (.!! "num_units") = Some (VInt 99).
Proof.
  destruct (set_hyperparameter_frame model_node "lm" "inits" (VSeq []) demo
              (default empty_node_state (node_state demo !! "model")))
    as (n' & st' & Hset & Hst' & Hnew & Hold & _).
  { vm_compute; reflexivity. }
  exists n', st'. split_and!; [exact Hset|exact Hst'|exact Hnew|].
  rewrite Hold; [vm_compute; reflexivity|discriminate].
Defined.

(** ** Hyperparameters set for a node and found by it *)

Lemma first_set_only (node_hps : gmap string (gmap string value)) key
    visited target v :
  target ∈ visited ->
  node_hps !! target ≫= (.!! key) = Some v ->
  (∀ b, b ∈ visited -> b ≠ target -> node_hps !! b ≫= (.!! key) = None) ->
  first_set node_hps key visited = Some v.
Proof.
  intros Hin Hv Hothers. induction visited as [|b visited IH]; simpl.
  - by apply elem_of_nil in Hin.
  - destruct (decide (b = target)) as [->|Hne].
    + by rewrite Hv.
    + rewrite Hothers by (done || by left).
      apply IH.
      * by apply elem_of_cons in Hin as [?|?].
      * intros b' Hb'. apply Hothers. by right.
Qed.

(** The value a chain node holds for a visited node is what the lookup of
    the key returns, when the override map and the closer nodes have none. *)
Lemma pushed_value_found n g d pre a post st key v default_value :
  graph n = Some g ->
  chain_of g d = pre ++ a :: post ->
  chain_has_state n pre ->
  yielded (yield_chain n [key] [] pre exhausted) = [] ->
  node_state n !! name a = Some st ->
  first_set (set_hyperparameters st) key ((name <$> pre) ++ [name a]) = Some v ->
  override_hyperparameters n !! key = None ->
  find_hyperparameter d [key] default_value n = (n, Ok v).
Proof.
  intros Hg Hchain Hpre Hnone Hst Hv Hoverride.
  unfold find_hyperparameter, find_hyperparameters. rewrite Hg.
  fold (chain_of g d). rewrite Hchain.
  rewrite yield_chain_prefix by done. rewrite Hnone.
  cbn [yield_present]. rewrite Hoverride.
  cbn [yield_chain]. rewrite Hst. cbn [yield_node yield_all yielded app].
  rewrite <- head_yield_set in Hv.
  by destruct (yield_set _ _ _) as [|v0 vs]; simplify_eq/=.
Qed.

Lemma set_hyperparameter_pushed a target key v n n' :
  set_hyperparameter a target key v n = (n', Ok tt) ->
  graph n' = graph n
  ∧ override_hyperparameters n' = override_hyperparameters n
  ∧ ∃ st', node_state n' !! name a = Some st'
           ∧ set_hyperparameters st' !! target ≫= (.!! key) = Some v
           ∧ ∀ b, b ≠ target ->
                  set_hyperparameters st' !! b = pushed_by n a !! b.
Proof.
  unfold set_hyperparameter, bind, state_of, pushed_by.
  destruct (node_state n !! name a) as [st|] eqn:Hst; [|done].
  simpl. intros [= <-]. split_and!; [done..|].
  eexists. split_and!.
  - simpl. by rewrite lookup_insert_eq.
  - simpl. rewrite lookup_insert_eq. simpl. by rewrite lookup_insert_eq.
  - intros b Hne. simpl. rewrite lookup_insert_ne by done.
    destruct (has_key (set_hyperparameters st) target); [done|].
    by rewrite lookup_insert_ne.
Qed.

Lemma found_after_set a target key v n n' g d pre post default_value :
  set_hyperparameter a target key v n = (n', Ok tt) ->
  graph n = Some g ->
  chain_of g d = pre ++ a :: post ->
  chain_has_state n' pre ->
  yielded (yield_chain n' [key] [] pre exhausted) = [] ->
  target ∈ (name <$> pre) ++ [name a] ->
  (∀ b, b ∈ (name <$> pre) ++ [name a] -> b ≠ target ->
        pushed_by n a !! b ≫= (.!! key) = None) ->
  override_hyperparameters n !! key = None ->
  find_hyperparameter d [key] default_value n' = (n', Ok v).
Proof.
  intros (Hg' & Hov' & st' & Hst' & Hv & Hothers)%set_hyperparameter_pushed
    Hg Hchain Hpre Hnone Htarget Hfree Hoverride.
  eapply pushed_value_found; try done; [congruence| |congruence].
  eapply first_set_only; [done..|].
  intros b Hb Hne. rewrite Hothers by done. by apply Hfree.
Qed.

(** X5.  A node can set a hyperparameter for itself: after
    [set_hyperparameter] with its own name, its [find_hyperparameter] for the
    key returns the value, whatever its ancestors, the caller's default and
    the global default map hold, unless the override map has the key. *)
Theorem set_hyperparameter_for_itself self key v n n' g default_value :
  set_hyperparameter self (name self) key v n = (n', Ok tt) ->
  graph n = Some g ->
  override_hyperparameters n !! key = None ->
  find_hyperparameter self [key] default_value n' = (n', Ok v).
Proof.
  intros Hset Hg Hoverride.
  apply (found_after_set self (name self) key v n n' g self []
           (Graph.architecture_ancestors g (name self)));
    try done.
  - apply Forall_nil_2.
  - apply list_elem_of_here.
  - intros b Hb Hne. simpl in Hb.
    apply elem_of_cons in Hb as [->|Hb]; [done|].
    by apply elem_of_nil in Hb.
Qed.

Lemma set_hyperparameter_for_itself_witness :
  find_hyperparameter linear_mapping_node ["num_units"] None demo_own
  = (demo_own, Ok (VInt 3)).
Proof.
  apply (set_hyperparameter_for_itself linear_mapping_node "num_units"
           (VInt 3) demo demo_own demo_graph);
    vm_compute; reflexivity.
Defined.

(** X6.  What a node forwards to a node below it is what that node finds:
    when [forward_hyperparameter] succeeds, the value the forwarding node
    finds for its keys is returned by [find_hyperparameter] for the new key
    on every view whose chain reaches the forwarding node after the target,
    provided no closer node of the chain and no entry of the override map
    holds a value for the new key.  When the lookup of the forwarding node
    fails, nothing is set. *)
Theorem forward_hyperparameter_reaches p target key keys default_value n :
  (∀ e, find_hyperparameter p keys default_value n = (n, Raise e) ->
        forward_hyperparameter p target key keys default_value n
        = (n, Raise e))
  ∧ ∀ n' g d pre post default_value',
      forward_hyperparameter p target key keys default_value n = (n', Ok tt) ->
      graph n = Some g ->
      chain_of g d = pre ++ p :: post ->
      chain_has_state n' pre ->
      yielded (yield_chain n' [key] [] pre exhausted) = [] ->
      target ∈ (name <$> pre) ++ [name p] ->
      (∀ b, b ∈ (name <$> pre) ++ [name p] -> b ≠ target ->
            pushed_by n p !! b ≫= (.!! key) = None) ->
      override_hyperparameters n !! key = None ->
      ∃ v, find_hyperparameter p keys default_value n = (n, Ok v)
           ∧ find_hyperparameter d [key] default_value' n' = (n', Ok v).
Proof.
  split.
  - intros e Hfind. unfold forward_hyperparameter.
    by erewrite bind_raise.
  - intros n' g d pre post default_value' Hforward Hg Hchain Hpre Hnone
      Htarget Hfree Hoverride.
    unfold forward_hyperparameter, bind in Hforward.
    pose proof (find_hyperparameter_pure p keys default_value n) as Hpure.
    destruct (find_hyperparameter p keys default_value n) as [n0 [v|e]];
      simpl in Hpure; subst n0; [|done].
    exists v. split; [done|]. by eapply found_after_set.
Qed.

Lemma forward_hyperparameter_reaches_witness :
  ∃ v, find_hyperparameter model_node ["learning_rate"] None demo
       = (demo, Ok v)
       ∧ find_hyperparameter linear_mapping_node ["step"] None demo_step
         = (demo_step, Ok v).
Proof.
  destruct (forward_hyperparameter_reaches model_node "lm" "step"
              ["learning_rate"] None demo) as [_ H].
  apply (H demo_step demo_graph linear_mapping_node
           [linear_mapping_node; sequential_node] [] None).
  - vm_compute; reflexivity.
  - vm_compute; reflexivity.
  - vm_compute; reflexivity.
  - repeat constructor; eexists; vm_compute; reflexivity.
  - vm_compute; reflexivity.
  - apply list_elem_of_here.
  - intros b Hb Hne. simpl in Hb.
    apply elem_of_cons in Hb as [->|Hb]; [done|].
    apply elem_of_cons in Hb as [->|Hb]; [vm_compute; reflexivity|].
    apply elem_of_cons in Hb as [->|Hb]; [vm_compute; reflexivity|].
    by apply elem_of_nil in Hb.
  - vm_compute; reflexivity.
Defined.

(** ** The caller's default, an empty list of keys, and the whole generator *)

Lemma hierarchy_tier_no_keys n prefix chain :
  hierarchy_tier n [] prefix chain = None.
Proof.
  revert prefix. induction chain as [|a chain IH]; intros prefix; simpl; done.
Qed.

(** X7.  With a caller default [find_hyperparameter] does not raise
    [MissingHyperparameter], and the global default map is not consulted:
    when the override map and the hierarchy have no value for the keys the
    result is the caller's default, whatever the global default map holds
    for them.  [None] passed as the default is a default like any other. *)
Theorem caller_default_shadows_global n g self keys d :
  graph n = Some g ->
  chain_has_state n (chain_of g self) ->
  (∃ v, find_hyperparameter self keys (Some d) n = (n, Ok v))
  ∧ (first_present (override_hyperparameters n) keys = None ->
     hierarchy_tier n keys [] (chain_of g self) = None ->
     find_hyperparameter self keys (Some d) n = (n, Ok d)).
Proof.
  intros Hg Hst. rewrite (find_hyperparameter_resolves n g) by done.
  unfold resolve. split.
  - repeat case_match; by eauto.
  - by intros -> ->.
Qed.

Lemma caller_default_shadows_global_witness :
  find_hyperparameter input_node ["batch_axis"] (Some VNone) demo
  = (demo, Ok VNone).
Proof.
  apply (caller_default_shadows_global demo demo_graph).
  - vm_compute; reflexivity.
  - repeat constructor; eexists; vm_compute; reflexivity.
  - vm_compute; reflexivity.
  - vm_compute; reflexivity.
Defined.

(** X8.  With an empty list of candidate keys no tier has a match:
    [find_hyperparameter] returns the caller's default if there is one and
    raises [MissingHyperparameter] with the empty list otherwise. *)
Theorem find_hyperparameter_no_keys n g self default_value :
  graph n = Some g ->
  chain_has_state n (chain_of g self) ->
  find_hyperparameter self [] default_value n
  = (n, match default_value with
        | Some d => Ok d
        | None => Raise (MissingHyperparameter [])
        end).
Proof.
  intros Hg Hst. rewrite (find_hyperparameter_resolves n g) by done.
  unfold resolve. cbn [first_present]. by rewrite hierarchy_tier_no_keys.
Qed.

Lemma find_hyperparameter_no_keys_witness :
  find_hyperparameter linear_mapping_node [] None demo
  = (demo, Raise (MissingHyperparameter [])).
Proof.
  apply (find_hyperparameter_no_keys demo demo_graph).
  - vm_compute; reflexivity.
  - repeat constructor; eexists; vm_compute; reflexivity.
Defined.

Lemma yield_chain_to_the_end n keys prefix chain then_ :
  stopped (yield_chain n keys prefix chain then_) = None ->
  stopped then_ = None
  ∧ ∃ vs, yielded (yield_chain n keys prefix chain then_)
          = vs ++ yielded then_.
Proof.
  revert prefix. induction chain as [|a chain IH]; intros prefix; simpl.
  - intros Hend. split; [done|]. by exists [].
  - destruct (node_state n !! name a) as [st|]; [|done]. simpl.
    intros Hend. destruct (IH _ Hend) as [Hthen [vs Hvs]].
    split; [done|]. rewrite Hvs. eexists. by rewrite app_assoc.
Qed.

(** X9.  The two ways to read the generator agree: when running
    [find_hyperparameters] to its end gives the values [vs] without an
    exception, [find_hyperparameter] returns the first of them, and raises
    [MissingHyperparameter] when there is none; with a caller default the
    values contain the default, so there is one. *)
Theorem find_hyperparameter_is_first self keys default_value n n' vs :
  all_hyperparameters self keys default_value n = (n', Ok vs) ->
  n' = n
  ∧ find_hyperparameter self keys default_value n
    = (n, match vs with
          | v :: _ => Ok v
          | [] => Raise (MissingHyperparameter keys)
          end)
  ∧ ∀ d, default_value = Some d -> d ∈ vs.
Proof.
  unfold all_hyperparameters, find_hyperparameter.
  remember (find_hyperparameters self keys default_value n) as gen eqn:Hgen.
  destruct (stopped gen) as [e|] eqn:Hend; [done|].
  intros [= <- <-]. split_and!; [done| |].
  - by destruct (yielded gen).
  - intros d ->. subst gen. unfold find_hyperparameters in *.
    cbn [yield_all yielded stopped] in *.
    destruct (graph n) as [g|]; [|done].
    apply yield_chain_to_the_end in Hend as [_ [vs ->]].
    cbn [yield_all yielded]. set_solver.
Qed.

Lemma find_hyperparameter_is_first_witness :
  find_hyperparameter linear_mapping_node ["output_dim"; "num_units"] None demo
  = (demo, Ok (VInt 7)).
Proof.
  apply (find_hyperparameter_is_first linear_mapping_node
           ["output_dim"; "num_units"] None demo demo
           [VInt 7; VInt 5; VInt 99]).
  vm_compute; reflexivity.
Defined.

(** * Further properties of [build] *)

(** ** The hooks of a build that succeeds *)

Lemma bind_inv_ok {S A B} (m : M S A) (f : A -> M S B) s s' b :
  bind m f s = (s', Ok b) ->
  ∃ s1 a, m s = (s1, Ok a) ∧ f a s1 = (s', Ok b).
Proof.
  unfold bind. destruct (m s) as [s1 [a|e]]; [|done]. by eauto.
Qed.

Lemma grows_nothing {A} (m : M Run A) w :
  obeys (grows (fun _ => False)) m -> log (fst (m w)) = log w.
Proof.
  intros Hm. destruct (Hm w) as [_ (es & Hlog & Hes & _)].
  destruct es as [|e es]; [by rewrite app_nil_r in Hlog|].
  by apply Forall_cons in Hes as [[] _].
Qed.

Lemma call_hook_ok {R} h (as_value : R -> value) rel_network body w w' r :
  call_hook h as_value rel_network body w = (w', Ok r) ->
  log w' = log w ++ [Enter h (name rel_network) (shows_mutable (net w));
                     Exit h (name rel_network) (Ok (as_value r))].
Proof.
  unfold call_hook.
  destruct (run_hook rel_network body (net w)) as [n [r'|e]]; [|done].
  intros [= <- <-]. simpl. by rewrite <- app_assoc.
Qed.

Lemma in_net_ok {A} (m : M Network A) w w' a :
  in_net m w = (w', Ok a) -> log w' = log w.
Proof.
  intros Hrun. pose proof (in_net_log m w) as Hlog. by rewrite Hrun in Hlog.
Qed.

(** The body of the output loop, when it succeeds, has run the node's
    [get_input_keys] and its [compute_output], which returned [None]. *)
Lemma compute_node_ok node w w' :
  compute_node node w = (w', Ok tt) ->
  ∃ input_keys b1 b2,
    log w' = log w
             ++ [Enter GetInputKeys (name node) b1;
                 Exit GetInputKeys (name node) (Ok (VSeq (VStr <$> input_keys)));
                 Enter ComputeOutput (name node) b2;
                 Exit ComputeOutput (name node) (Ok VNone)].
Proof.
  unfold compute_node.
  intros (w1 & rel & Hrel & Hrest)%bind_inv_ok.
  assert (rel = node) as ->.
  { unfold in_net in Hrel.
    destruct (relative_network_built node (net w)) as [n0 [rel'|e]] eqn:Hview;
      [|done].
    apply relative_network_built_ok in Hview as [_ ->]. by simplify_eq. }
  apply in_net_ok in Hrel.
  apply bind_inv_ok in Hrest as (w2 & input_keys & Hkeys & Hrest).
  apply call_hook_ok in Hkeys.
  apply bind_inv_ok in Hrest as (w3 & ins & Hins & Hrest).
  assert (Hlog3 : log w3 = log w2).
  { match type of Hins with
    | ?m w2 = _ =>
        assert (Hquiet : obeys (grows (fun _ => False)) m);
        [|pose proof (grows_nothing m w2 Hquiet) as Hlog;
          by rewrite Hins in Hlog]
    end.
    apply obeys_collect; [apply _|]. intros input_key.
    apply in_net_grows. apply obeys_bind; [apply _|apply the_graph_evolves|].
    intros g. apply fetch_input_evolves. }
  apply bind_inv_ok in Hrest as (w4 & [] & Hstore & Hrest).
  apply in_net_ok in Hstore.
  apply bind_inv_ok in Hrest as (w5 & output_res & Hout & Hassert).
  apply call_hook_ok in Hout.
  unfold assert in Hassert. destruct output_res; try done.
  injection Hassert as <-.
  eexists input_keys, _, _.
  rewrite Hout, Hstore, Hlog3, Hkeys, Hrel. by rewrite <- app_assoc.
Qed.

Lemma for_each_compute_node_ok nodes w w' :
  for_each nodes compute_node w = (w', Ok tt) ->
  ∃ es, log w' = log w ++ es
        ∧ hooks_run es
          = flat_map (fun node => [(GetInputKeys, name node);
                                   (ComputeOutput, name node)]) nodes
        ∧ Forall (fun e => returned_a_value e = false) es.
Proof.
  revert w. induction nodes as [|node nodes IH]; intros w; simpl.
  - intros [= <-]. exists []. by rewrite app_nil_r.
  - intros (w1 & [] & Hnode & Hrest)%bind_inv_ok.
    apply compute_node_ok in Hnode as (input_keys & b1 & b2 & Hlog1).
    apply IH in Hrest as (es & Hlog & Hrun & Hnone).
    eexists (_ ++ es). split_and!.
    + by rewrite Hlog, Hlog1, <- app_assoc.
    + unfold hooks_run in *. by rewrite omap_app, Hrun.
    + apply Forall_app. split; [by repeat constructor|done].
Qed.

(** X10.  When [build] succeeds on a network that had no graph, these are
    the hooks it has run, in this order: [init_long_range_dependencies] on
    every node of the tree root to leaves, [init_state] likewise, then for
    every node in the topological order of the frozen graph its
    [get_input_keys] and its [compute_output], then [mutate_update_deltas] on
    every node root to leaves; each exactly once, and every [compute_output]
    returned [None]. *)
Theorem build_runs_each_hook_once w w' :
  is_built (net w) = false ->
  build w = (w', Ok tt) ->
  let tree := Graph.subtree (root_node (net w)) in
  ∃ g events,
    graph (net w') = Some g
    ∧ is_mutable g = false
    ∧ log w' = log w ++ events
    ∧ hooks_run events
      = ((fun node => (InitLongRangeDependencies, name node)) <$> tree)
        ++ ((fun node => (InitState, name node)) <$> tree)
        ++ flat_map (fun node => [(GetInputKeys, name node);
                                  (ComputeOutput, name node)])
             (Graph.computation_graph_nodes_topological g)
        ++ ((fun node => (MutateUpdateDeltas, name node)) <$> tree)
    ∧ Forall (fun e => returned_a_value e = false) events.
Proof.
  intros Hunbuilt Hbuild tree. unfold build in Hbuild.
  rewrite Hunbuilt, build_body_phases in Hbuild.
  destruct (allocate_states_spec w) as (_ & Hlog1 & Hg1 & _).
  set (w1 := fst (allocate_states w)) in *. unfold build_phases in Hbuild.
  apply bind_inv_ok in Hbuild as (w2 & [] & Hphase2 & Hbuild).
  destruct (visit_all_spec InitLongRangeDependencies
              init_long_range_dependencies w1 _ Hg1)
    as (Hev2 & es2 & Hlog2 & Hφ2 & _ & Hrun2).
  fold init_dependencies_phase in Hev2, Hlog2, Hrun2.
  rewrite Hphase2 in Hev2, Hlog2, Hrun2. simpl in Hev2, Hlog2, Hrun2.
  destruct (ev_graph _ _ Hev2 _ Hg1) as (g2 & Hg2 & Hroot2 & _).
  apply bind_inv_ok in Hbuild as (w3 & [] & Hphase3 & Hbuild).
  destruct (visit_all_spec InitState init_state w2 _ Hg2)
    as (Hev3 & es3 & Hlog3 & Hφ3 & _ & Hrun3).
  fold init_state_phase in Hev3, Hlog3, Hrun3.
  rewrite Hphase3 in Hev3, Hlog3, Hrun3. simpl in Hev3, Hlog3, Hrun3.
  destruct (ev_graph _ _ Hev3 _ Hg2) as (g3 & Hg3 & Hroot3 & _).
  apply bind_inv_ok in Hbuild as (w4 & [] & Hphase4 & Hbuild).
  rewrite (freeze_phase_spec w3 g3 Hg3) in Hphase4.
  injection Hphase4 as <-.
  set (w4 := {| net := set_graph (Some (Graph.freeze g3)) (net w3);
                log := log w3 ++ [Freeze] |}) in *.
  assert (Hfrozen4 : shows_mutable (net w4) = false) by done.
  apply bind_inv_ok in Hbuild as (w5 & [] & Hphase5 & Hphase6).
  (* the outputs *)
  pose proof (output_phase_grows w4) as [Hev5 _].
  rewrite Hphase5 in Hev5. simpl in Hev5.
  destruct (evolves_frozen _ _ Hev5 Hfrozen4) as [Hg5 Hfrozen5].
  unfold output_phase in Hphase5.
  erewrite bind_ok in Hphase5 by (by apply in_net_the_graph).
  apply for_each_compute_node_ok in Hphase5 as (es5 & Hlog5 & Hrun5 & Hnone5).
  (* the updates *)
  destruct (visit_all_spec MutateUpdateDeltas mutate_update_deltas w5
              (Graph.freeze g3))
    as (Hev6 & es6 & Hlog6 & Hφ6 & _ & Hrun6); [by rewrite Hg5|].
  fold update_phase in Hev6, Hlog6, Hrun6.
  rewrite Hphase6 in Hev6, Hlog6, Hrun6. simpl in Hev6, Hlog6, Hrun6.
  destruct (evolves_frozen _ _ Hev6 Hfrozen5) as [Hg6 _].
  exists (Graph.freeze g3), (es2 ++ es3 ++ [Freeze] ++ es5 ++ es6).
  split_and!.
  - by rewrite Hg6, Hg5.
  - done.
  - rewrite Hlog6, Hlog5. unfold w4. cbn [log].
    rewrite Hlog3, Hlog2, Hlog1. by rewrite <- !app_assoc.
  - unfold hooks_run in *. rewrite !omap_app.
    rewrite Hrun2, Hrun3, Hrun5, Hrun6 by done. simpl.
    by rewrite Hroot3, Hroot2.
  - rewrite !Forall_app. split_and!; [| |by repeat constructor|done|].
    + eapply Forall_impl; [exact Hφ2|]. intros e.
      by apply other_hook_fatal_return.
    + eapply Forall_impl; [exact Hφ3|]. intros e.
      by apply other_hook_fatal_return.
    + eapply Forall_impl; [exact Hφ6|]. intros e.
      by apply other_hook_fatal_return.
Qed.

Lemma build_runs_each_hook_once_witness :
  ∃ events,
    log demo_run = events
    ∧ hooks_run events
      = [(InitLongRangeDependencies, "model"); (InitLongRangeDependencies, "seq");
         (InitLongRangeDependencies, "i"); (InitLongRangeDependencies, "lm");
         (InitState, "model"); (InitState, "seq"); (InitState, "i");
         (InitState, "lm");
         (GetInputKeys, "model"); (ComputeOutput, "model");
         (GetInputKeys, "i"); (ComputeOutput, "i");
         (GetInputKeys, "lm"); (ComputeOutput, "lm");
         (GetInputKeys, "seq"); (ComputeOutput, "seq");
         (MutateUpdateDeltas, "model"); (MutateUpdateDeltas, "seq");
         (MutateUpdateDeltas, "i"); (MutateUpdateDeltas, "lm")].
Proof.
  destruct (build_runs_each_hook_once demo_start demo_run)
    as (g & events & Hg & _ & Hlog & Hrun & _).
  - vm_compute; reflexivity.
  - vm_compute; reflexivity.
  - exists events. split; [exact Hlog|]. rewrite Hrun.
    assert (g = demo_graph) as -> by (by injection Hg as <-).
    vm_compute; reflexivity.
Defined.

(** ** An input port without an incoming edge *)

(** X11.  When the first input key a node declares has no incoming edge,
    the body of the output loop fails with [TypeError] (the edge that is
    unpacked is [None]): the node's [get_input_keys] has run, its
    [compute_output] is not entered and no inputs are stored. *)
Theorem unconnected_input_fails node w n1 key keys g :
  is_built (net w) = true ->
  is_Some (node_state (net w) !! name node) ->
  run_hook node (get_input_keys node) (net w) = (n1, Ok (key :: keys)) ->
  graph n1 = Some g ->
  Graph.input_edge_for_node g (name node) key = None ->
  compute_node node w
  = ({| net := n1;
        log := log w
               ++ [Enter GetInputKeys (name node) (shows_mutable (net w));
                   Exit GetInputKeys (name node)
                     (Ok (VSeq (VStr <$> key :: keys)))] |},
     Raise TypeError).
Proof.
  intros Hbuilt [st Hst] Hkeys Hg Hedge. unfold compute_node.
  assert (Hrel : in_net (relative_network_built node) w = (w, Ok node)).
  { unfold in_net, relative_network_built, build_reentered,
      RelativeNetwork_init, bind, state_of, ret.
    rewrite Hbuilt, Hst. by destruct w. }
  erewrite bind_ok by exact Hrel.
  erewrite bind_ok.
  2: { unfold call_hook. rewrite Hkeys. reflexivity. }
  erewrite bind_raise.
  2: { simpl. erewrite bind_raise; [reflexivity|].
       unfold in_net, bind, the_graph. simpl. rewrite Hg, Hedge.
       reflexivity. }
  simpl. by rewrite <- app_assoc.
Qed.

Lemma unconnected_input_fails_witness :
  snd (compute_node linear_mapping_node unwired) = Raise TypeError.
Proof.
  erewrite (unconnected_input_fails linear_mapping_node unwired
              (net unwired) "default" []); [reflexivity|..].
  - reflexivity.
  - eexists; vm_compute; reflexivity.
  - reflexivity.
  - reflexivity.
  - reflexivity.
Defined.

(** ** Views build the network *)

Lemma in_net_RelativeNetwork_init node w :
  fst (in_net (RelativeNetwork_init node) w) = w.
Proof.
  unfold in_net, RelativeNetwork_init, bind, state_of, ret.
  destruct w as [n l]. simpl. by destruct (node_state n !! name node).
Qed.

(** X12.  [Network.__getitem__] builds the network on first use: whatever
    the name asked for, it leaves the network as [build] leaves it, so built;
    an exception of that build is the exception of the call.  On a built
    network nothing changes and no hook runs: the call returns the node of
    that name when the tree has one (and its state is allocated), and raises
    [KeyError] when it has none. *)
Theorem getitem_builds node_name w :
  fst (getitem node_name w) = fst (build w)
  ∧ is_built (net (fst (getitem node_name w))) = true
  ∧ (∀ e, snd (build w) = Raise e -> snd (getitem node_name w) = Raise e)
  ∧ (is_built (net w) = true ->
     fst (getitem node_name w) = w
     ∧ ∀ g, graph (net w) = Some g ->
            match Graph.name_to_node g node_name with
            | None => snd (getitem node_name w) = Raise (KeyError node_name)
            | Some node =>
                name node = node_name
                ∧ (is_Some (node_state (net w) !! node_name) ->
                   snd (getitem node_name w) = Ok node)
            end).
Proof.
  assert (Hfst : fst (getitem node_name w) = fst (build w)
                 ∧ ∀ e, snd (build w) = Raise e ->
                        snd (getitem node_name w) = Raise e).
  { unfold getitem. pose proof (build_builds w) as Hbuilt.
    destruct (build w) as [w1 [[]|e]] eqn:Hb; simpl in *.
    2: { erewrite bind_raise by exact Hb. split; [done|].
         by intros e' [= ->]. }
    erewrite bind_ok by exact Hb. split; [|done].
    unfold is_built in Hbuilt.
    destruct (graph (net w1)) as [g|] eqn:Hg; [|done].
    erewrite bind_ok by (by apply in_net_the_graph).
    destruct (Graph.name_to_node g node_name) as [node|]; [|done].
    unfold relative_network.
    erewrite bind_ok.
    2: { apply build_returns_when_built. unfold is_built. by rewrite Hg. }
    apply in_net_RelativeNetwork_init. }
  destruct Hfst as [Hfst Herr]. split_and!; [done| |done|].
  { rewrite Hfst. apply build_builds. }
  intros Hbuilt. rewrite Hfst, build_returns_when_built by done.
  split; [done|]. intros g Hg.
  unfold getitem. erewrite bind_ok by (by apply build_returns_when_built).
  erewrite bind_ok by (by apply in_net_the_graph).
  destruct (Graph.name_to_node g node_name) as [node|] eqn:Hnode; [|done].
  apply find_some in Hnode as [_ Hname%String.eqb_eq].
  split; [done|]. intros [st Hst].
  unfold relative_network.
  erewrite bind_ok by (by apply build_returns_when_built).
  unfold in_net, RelativeNetwork_init, bind, state_of, ret.
  by rewrite Hname, Hst.
Qed.

Lemma getitem_builds_witness :
  fst (getitem "lm" demo_run) = demo_run
  ∧ snd (getitem "lm" demo_run) = Ok linear_mapping_node.
Proof.
  destruct (getitem_builds "lm" demo_run) as (_ & _ & _ & H).
  destruct H as [Hsame Hnode]; [vm_compute; reflexivity|].
  split; [exact Hsame|].
  specialize (Hnode demo_graph eq_refl).
  assert (Hfound : Graph.name_to_node demo_graph "lm"
                   = Some linear_mapping_node) by (vm_compute; reflexivity).
  rewrite Hfound in Hnode. apply Hnode.
  eexists; vm_compute; reflexivity.
Defined.

(** * Shapes of composite nodes *)

Lemma flatten_1d_or_2d_shape_cases np_prod shape :
  match shape with
  | [] => flatten_1d_or_2d_shape np_prod shape = Raise (ValueError "")
  | [_] | [_; _] => flatten_1d_or_2d_shape np_prod shape = Ok shape
  | first :: rest =>
      flatten_1d_or_2d_shape np_prod shape
      = match np_prod rest with
        | Ok size => Ok [first; size]
        | Raise e => Raise e
        end
  end.
Proof. by destruct shape as [|a [|b [|c rest]]]. Qed.

Lemma wrap64_in_int64 z : in_int64 (wrap64 z).
Proof.
  unfold in_int64, wrap64.
  pose proof (Z.mod_pos_bound (z + 2 ^ 63) (2 ^ 64) eq_refl). lia.
Qed.

Lemma wrap64_fits z : in_int64 z -> wrap64 z = z.
Proof.
  unfold in_int64, wrap64. intros Hz.
  rewrite Z.mod_small by lia. lia.
Qed.

Lemma wrap64_mul_l a z : wrap64 (wrap64 a * z) = wrap64 (a * z).
Proof.
  unfold wrap64. f_equal.
  rewrite (Z.mod_eq (a + 2 ^ 63) (2 ^ 64)) by done.
  replace ((a + 2 ^ 63 - 2 ^ 64 * ((a + 2 ^ 63) `div` 2 ^ 64) - 2 ^ 63) * z
           + 2 ^ 63)%Z
    with (a * z + 2 ^ 63 + (- ((a + 2 ^ 63) `div` 2 ^ 64) * z) * 2 ^ 64)%Z
    by lia.
  apply Z_mod_plus_full.
Qed.

(** Multiplying in int64 step by step is the product without a bound,
    wrapped once. *)
Lemma int64_product_wraps sizes :
  int64_product sizes = wrap64 (exact_product sizes).
Proof.
  unfold int64_product.
  assert (Hacc : ∀ acc, foldl (fun acc size => wrap64 (acc * size))
                          (wrap64 acc) sizes
                        = wrap64 (acc * exact_product sizes)).
  { induction sizes as [|z sizes IH]; intros acc; simpl.
    - by rewrite Z.mul_1_r.
    - by rewrite wrap64_mul_l, IH, Z.mul_assoc. }
  specialize (Hacc 1%Z). rewrite Z.mul_1_l in Hacc. exact Hacc.
Qed.

Lemma exact_product_nonnegative sizes :
  Forall (fun size => 0 <= size)%Z sizes -> (0 <= exact_product sizes)%Z.
Proof.
  induction 1 as [|z sizes Hz _ IH]; simpl; [done|]. by apply Z.mul_nonneg_nonneg.
Qed.

Lemma sizes_of_integers sizes : sizes_of (DInt <$> sizes) = Some sizes.
Proof.
  induction sizes as [|z sizes IH]; [done|].
  rewrite fmap_cons. cbn [sizes_of]. by rewrite IH.
Qed.

Lemma int64_prod_multiplies : multiplies_in_int64 int64_prod.
Proof.
  intros sizes _ _. unfold int64_prod. by rewrite sizes_of_integers.
Qed.

(** X13.  [_flatten_1d_or_2d_shape] raises ValueError on the empty shape,
    returns a shape of rank one or two as it is, whatever its sizes, and
    passes on what [np.prod] raises on the sizes after the first of a longer
    shape.  With [np.prod] multiplying in int64, on a shape whose sizes after
    the first are integers that fit 64 bits it gives a shape of rank one or
    two, not longer than the shape, with the same first size, whose sizes
    after the first fit 64 bits and have the same product in int64; they
    stand for the same number of elements when that number is below 2^63 and
    no size is negative. *)
Theorem flatten_1d_or_2d_shape_keeps_size np_prod shape :
  multiplies_in_int64 np_prod ->
  (shape = [] -> flatten_1d_or_2d_shape np_prod shape = Raise (ValueError ""))
  ∧ ((1 <= length shape <= 2)%nat ->
     flatten_1d_or_2d_shape np_prod shape = Ok shape)
  ∧ (∀ e, (2 < length shape)%nat ->
          np_prod (drop 1 shape) = Raise e ->
          flatten_1d_or_2d_shape np_prod shape = Raise e)
  ∧ (∀ first rest,
       shape = first :: (DInt <$> rest) ->
       Forall in_int64 rest ->
       ∃ flat sizes,
         flatten_1d_or_2d_shape np_prod shape = Ok flat
         ∧ (1 <= length flat <= 2)%nat
         ∧ (length flat <= length shape)%nat
         ∧ head flat = head shape
         ∧ drop 1 flat = DInt <$> sizes
         ∧ Forall in_int64 sizes
         ∧ int64_product sizes = int64_product rest
         ∧ (Forall (fun size => 0 <= size)%Z rest ->
            (exact_product rest < 2 ^ 63)%Z ->
            exact_product sizes = exact_product rest)).
Proof.
  intros Hnumpy.
  pose proof (flatten_1d_or_2d_shape_cases np_prod shape) as Hcases.
  split_and!.
  - by intros ->.
  - intros Hlen. by destruct shape as [|a [|b [|c rest]]]; simpl in *; try lia.
  - intros e Hlen He.
    destruct shape as [|a [|b [|c rest]]]; simpl in *; try lia.
    by rewrite Hcases, He.
  - intros first rest -> Hrest.
    destruct rest as [|b [|c rest]].
    + exists [first], []. simpl. split_and!; try done; lia.
    + exists [first; DInt b], [b]. simpl. split_and!; try done; lia.
    + set (sizes := b :: c :: rest) in *.
      assert (Hprod : np_prod (DInt <$> sizes)
                      = Ok (DInt (int64_product sizes))).
      { apply Hnumpy; [simpl; lia|done]. }
      exists [first; DInt (int64_product sizes)], [int64_product sizes].
      assert (Hfits : in_int64 (int64_product sizes)).
      { rewrite int64_product_wraps. apply wrap64_in_int64. }
      split.
      { change (flatten_1d_or_2d_shape np_prod (first :: (DInt <$> sizes)))
          with (match np_prod (DInt <$> sizes) with
                | Ok size => Ok [first; size]
                | Raise e => Raise e
                end).
        by rewrite Hprod. }
      split_and!; try done; try (simpl; lia).
      * constructor; [exact Hfits|constructor].
      * unfold int64_product at 1. simpl. rewrite Z.mul_1_l.
        by apply wrap64_fits.
      * intros Hpos Hbound.
        assert (Hexact : int64_product sizes = exact_product sizes).
        { rewrite int64_product_wraps. apply wrap64_fits.
          pose proof (exact_product_nonnegative sizes Hpos).
          unfold in_int64. lia. }
        rewrite Hexact. simpl. lia.
Qed.

Lemma flatten_1d_or_2d_shape_keeps_size_witness :
  ∃ flat, flatten_1d_or_2d_shape int64_prod [DNone; DInt 4; DInt 5]%Z
          = Ok flat
          ∧ drop 1 flat = [DInt 20%Z].
Proof.
  destruct (flatten_1d_or_2d_shape_keeps_size int64_prod
              [DNone; DInt 4; DInt 5]%Z int64_prod_multiplies)
    as (_ & _ & _ & H).
  destruct (H DNone [4; 5]%Z eq_refl) as (flat & sizes & Hflat & _ & _ & _
                                           & Hdrop & _ & _ & Hexact).
  { repeat constructor; unfold in_int64; lia. }
  exists flat. split; [exact Hflat|].
  rewrite Hdrop. destruct sizes as [|size [|? ?]].
  - vm_compute in Hflat. by simplify_eq.
  - assert (Hsize : exact_product [size] = exact_product [4; 5]%Z).
    { apply Hexact; [repeat constructor; lia|vm_compute; reflexivity]. }
    simpl in Hsize. simpl. repeat f_equal. lia.
  - vm_compute in Hflat. by simplify_eq.
Defined.

(** X14.  [_flatten_1d_or_2d_shape] is idempotent: the shape it gives is a
    shape it gives back as it is, whatever [np.prod] returns. *)
Theorem flatten_1d_or_2d_shape_idempotent np_prod shape flat :
  flatten_1d_or_2d_shape np_prod shape = Ok flat ->
  flatten_1d_or_2d_shape np_prod flat = Ok flat.
Proof.
  pose proof (flatten_1d_or_2d_shape_cases np_prod shape) as Hcases.
  destruct shape as [|a [|b [|c rest]]]; rewrite Hcases.
  - done.
  - by intros [= <-].
  - by intros [= <-].
  - destruct (np_prod _) as [size|e]; [|done]. by intros [= <-].
Qed.

Lemma flatten_1d_or_2d_shape_idempotent_witness :
  flatten_1d_or_2d_shape int64_prod [DInt 3; DInt 20]%Z
  = Ok [DInt 3; DInt 20]%Z.
Proof.
  apply (flatten_1d_or_2d_shape_idempotent int64_prod
           [DInt 3; DInt 4; DInt 5]%Z).
  reflexivity.
Defined.

(** * Invariants of the node states *)

(** X15.  [original_variables] is append-only: whatever a hook does through
    its view, and the views of other nodes, every entry of the
    [original_variables] of every node is afterwards what it was. *)
Theorem original_variables_append_only {R} view (h : hook R) n m st x v :
  node_state n !! m = Some st ->
  original_variables st !! x = Some v ->
  ∃ st', node_state (fst (run_hook view h n)) !! m = Some st'
         ∧ original_variables st' !! x = Some v.
Proof.
  intros Hst Hx.
  destruct (ev_states _ _ (run_hook_evolves view h n) _ _ Hst)
    as (st' & Hst' & Hsub).
  exists st'. split; [done|]. by eapply lookup_weaken.
Qed.

Lemma original_variables_append_only_witness :
  ∃ st',
    node_state
      (fst (run_hook sequential_node
              (call_ (Some "lm")
                 (ReplaceVariable "weight"
                    {| vw_name := "w"; vw_relative_network := "seq";
                       vw_kwargs := [] |})
                 (fun _ => Done VNone))
              demo)) !! "lm" = Some st'
    ∧ original_variables st' !! "weight"
      = Some {| vw_name := "lm:weight"; vw_relative_network := "lm";
                vw_kwargs := [("output_dim", VInt 7)] |}.
Proof.
  apply (original_variables_append_only sequential_node _ demo "lm"
           (default empty_node_state (node_state demo !! "lm")));
    vm_compute; reflexivity.
Defined.

#[local] Instance keeps_composable {S} (P : S -> Prop) : Composable (keeps P).
Proof. split; unfold keeps; by auto. Qed.

Lemma aligned_put_state self st' n :
  variables_aligned n ->
  dom (current_variables st') = dom (original_variables st') ->
  variables_aligned
    (set_node_state (<[name self := st']> (node_state n)) n).
Proof.
  intros Hal Hst' m st. simpl.
  destruct (decide (m = name self)) as [->|Hne].
  - rewrite lookup_insert_eq. by intros [= <-].
  - rewrite lookup_insert_ne by done. apply Hal.
Qed.

Ltac keep_aligned :=
  intros n Hal; unfold bind, state_of, the_graph, put_state, modify, assert,
    ret, raise; simpl;
  repeat (case_match; simplify_eq/=); try done;
  (apply aligned_put_state; [done|]); simpl;
  match goal with
  | H : node_state _ !! _ = Some ?st |- _ => pose proof (Hal _ _ H) as Hst
  end.

Lemma store_inputs_aligned self ins :
  obeys (keeps variables_aligned) (store_inputs self ins).
Proof. unfold store_inputs. by keep_aligned. Qed.

Lemma set_data_aligned self key v :
  obeys (keeps variables_aligned) (set_data self key v).
Proof. unfold set_data. by keep_aligned. Qed.

Lemma set_hyperparameter_aligned self node_name key v :
  obeys (keeps variables_aligned) (set_hyperparameter self node_name key v).
Proof. unfold set_hyperparameter. by keep_aligned. Qed.

Lemma create_variable_aligned self x kwargs :
  obeys (keeps variables_aligned) (create_variable self x kwargs).
Proof.
  unfold create_variable. keep_aligned. by rewrite !dom_insert_L, Hst.
Qed.

Lemma replace_variable_aligned self x v :
  obeys (keeps variables_aligned) (replace_variable self x v).
Proof.
  unfold replace_variable. keep_aligned. rewrite dom_insert_L, Hst.
  match goal with
  | H : has_key _ x = true |- _ => apply has_key_true in H as Hin
  end.
  apply elem_of_dom in Hin. apply subseteq_union_1_L.
  by apply singleton_subseteq_l.
Qed.

Lemma same_states_aligned {A} (m : M Network A) :
  (∀ n, node_state (fst (m n)) = node_state n) ->
  obeys (keeps variables_aligned) m.
Proof. intros Hm n Hal k st. rewrite Hm. apply Hal. Qed.

Lemma on_graph_states {A} (m : M TreeanoGraph A) n :
  node_state (fst (on_graph m n)) = node_state n.
Proof.
  unfold on_graph. destruct (graph n) as [g|]; [|done]. by destruct (m g).
Qed.

Lemma exec_call_aligned self {A} (c : call A) :
  obeys (keeps variables_aligned) (exec_call self c).
Proof.
  destruct c; simpl.
  - apply store_inputs_aligned.
  - apply set_data_aligned.
  - apply same_states_aligned. intros n.
    unfold get_data, bind, state_of, ret, raise.
    by repeat (case_match; simplify_eq/=).
  - apply same_states_aligned. intros n.
    unfold get_variable, bind, state_of, ret, raise.
    by repeat (case_match; simplify_eq/=).
  - apply set_hyperparameter_aligned.
  - apply obeys_bind; [apply _| |intros v0; apply set_hyperparameter_aligned].
    apply same_states_aligned. intros n. by rewrite find_hyperparameter_pure.
  - apply same_states_aligned. intros n. by rewrite find_hyperparameter_pure.
  - apply same_states_aligned. intros n. unfold all_hyperparameters.
    by case_match.
  - apply create_variable_aligned.
  - apply create_variable_aligned.
  - apply replace_variable_aligned.
  - apply same_states_aligned. intros n.
    unfold forward_input_to, bind, the_graph.
    destruct (graph n) as [g|] eqn:Hg; [|done]. simpl.
    destruct (Graph.input_edge_for_node _ _ _) as [[? ?]|].
    + apply on_graph_states.
    + by destruct ignore_no_input.
  - apply same_states_aligned. intros n. apply on_graph_states.
  - apply same_states_aligned. intros n. apply on_graph_states.
  - apply same_states_aligned. intros n. apply on_graph_states.
  - apply same_states_aligned. intros n. apply on_graph_states.
  - apply same_states_aligned. intros n.
    unfold get_all_input_edges, bind, the_graph, ret.
    by repeat (case_match; simplify_eq/=).
  - apply same_states_aligned. by intros n.
Qed.

Lemma run_hook_aligned {R} self (h : hook R) :
  obeys (keeps variables_aligned) (run_hook self h).
Proof.
  induction h as [r|e|A on c k IH]; simpl.
  - apply obeys_ret, _.
  - apply obeys_raise, _.
  - intros n Hal. unfold bind.
    pose proof (view_of_pure self on n) as Hview.
    destruct (view_of self on n) as [n0 [target|e]]; simpl in Hview; subst n0.
    + pose proof (exec_call_aligned target c n Hal) as Hcall.
      destruct (exec_call target c n) as [n1 o]. by apply IH.
    + by apply IH.
Qed.

Lemma in_net_aligned {A} (m : M Network A) :
  obeys (keeps variables_aligned) m -> obeys (keeps run_aligned) (in_net m).
Proof.
  intros Hm w Hal. specialize (Hm (net w) Hal).
  unfold in_net. by destruct (m (net w)).
Qed.

Lemma in_net_same_states_aligned {A} (m : M Network A) :
  (∀ n, node_state (fst (m n)) = node_state n) ->
  obeys (keeps run_aligned) (in_net m).
Proof. intros Hm. by apply in_net_aligned, same_states_aligned. Qed.

Lemma call_hook_aligned {R} h (as_value : R -> value) rel_network body :
  obeys (keeps run_aligned) (call_hook h as_value rel_network body).
Proof.
  intros w Hal. unfold call_hook.
  pose proof (run_hook_aligned rel_network body (net w) Hal) as Hrun.
  by destruct (run_hook rel_network body (net w)).
Qed.

Lemma relative_network_built_aligned node :
  obeys (keeps run_aligned) (in_net (relative_network_built node)).
Proof.
  apply in_net_same_states_aligned. intros n.
  by rewrite relative_network_built_pure.
Qed.

Lemma the_graph_aligned : obeys (keeps run_aligned) (in_net the_graph).
Proof.
  apply in_net_same_states_aligned. intros n. unfold the_graph.
  by case_match.
Qed.

Lemma visit_aligned h body node : obeys (keeps run_aligned) (visit h body node).
Proof.
  apply obeys_bind; [apply _|apply relative_network_built_aligned|].
  intros rel. apply obeys_bind; [apply _|apply call_hook_aligned|].
  intros _. apply obeys_ret, _.
Qed.

Lemma visit_all_aligned h body :
  obeys (keeps run_aligned)
    (g <- in_net the_graph ;;
     for_each (Graph.architectural_tree_nodes_root_to_leaves g) (visit h body)).
Proof.
  apply obeys_bind; [apply _|apply the_graph_aligned|].
  intros g. apply obeys_for_each; [apply _|]. intros node.
  apply visit_aligned.
Qed.

Lemma compute_node_aligned node : obeys (keeps run_aligned) (compute_node node).
Proof.
  unfold compute_node.
  apply obeys_bind; [apply _|apply relative_network_built_aligned|].
  intros rel. apply obeys_bind; [apply _|apply call_hook_aligned|].
  intros input_keys. apply obeys_bind; [apply _| |].
  { apply obeys_collect; [apply _|]. intros input_key.
    apply in_net_same_states_aligned. intros n.
    unfold bind, the_graph. destruct (graph n) as [g|]; [|done]. simpl.
    destruct (Graph.input_edge_for_node _ _ _) as [[node_name from_key]|];
      [|done].
    pose proof (getitem_built_pure node_name n) as Hpure.
    destruct (getitem_built node_name n) as [n0 [other|e]]; simpl in *;
      subst n0; [|done].
    unfold get_variable, bind, state_of, ret, raise.
    by repeat (case_match; simplify_eq/=). }
  intros ins. apply obeys_bind; [apply _| |].
  { apply in_net_aligned, store_inputs_aligned. }
  intros _. apply obeys_bind; [apply _|apply call_hook_aligned|].
  intros output_res. apply obeys_assert, _.
Qed.

Lemma build_phases_aligned : obeys (keeps run_aligned) build_phases.
Proof.
  unfold build_phases.
  apply obeys_bind; [apply _|apply visit_all_aligned|intros _].
  apply obeys_bind; [apply _|apply visit_all_aligned|intros _].
  apply obeys_bind; [apply _| |intros _].
  { apply obeys_bind; [apply _| |intros _].
    - apply in_net_same_states_aligned. intros n. apply on_graph_states.
    - by intros w Hal. }
  apply obeys_bind; [apply _| |intros _].
  { apply obeys_bind; [apply _|apply the_graph_aligned|]. intros g.
    apply obeys_for_each; [apply _|]. apply compute_node_aligned. }
  apply visit_all_aligned.
Qed.

Lemma allocate_states_aligned : obeys (keeps run_aligned) allocate_states.
Proof.
  unfold allocate_states.
  apply obeys_bind; [apply _| |intros _].
  { by apply in_net_same_states_aligned. }
  apply obeys_bind; [apply _|apply the_graph_aligned|]. intros g.
  apply obeys_for_each; [apply _|]. intros node w Hal.
  by apply aligned_put_state.
Qed.

(** X16.  The current and the original variables of a node always go by the
    same names: [build] keeps it so, and so does every hook run afterwards,
    on a network whose states have it, as the empty node state store of a
    new network has.  So on the built network [replace_variable] accepts
    exactly the names that [get_variable] can read: either the name has a
    current variable and the replacement is made and returned, or
    [get_variable] raises KeyError and [replace_variable] fails its
    assertion, changing nothing. *)
Theorem variables_stay_aligned w :
  variables_aligned (net w) ->
  variables_aligned (net (fst (build w)))
  ∧ (∀ R view (h : hook R),
       variables_aligned (fst (run_hook view h (net (fst (build w))))))
  ∧ ∀ self x new_variable,
      let n := net (fst (build w)) in
      is_Some (node_state n !! name self) ->
      ((∃ v, get_variable self x n = (n, Ok v))
       ∧ snd (replace_variable self x new_variable n) = Ok new_variable)
      ∨ (get_variable self x n = (n, Raise (KeyError x))
         ∧ replace_variable self x new_variable n
           = (n, Raise AssertionError)).
Proof.
  intros Hal.
  assert (Hbuild : variables_aligned (net (fst (build w)))).
  { unfold build. destruct (is_built (net w)); [done|].
    assert (Hbody : obeys (keeps run_aligned) build_body).
    { apply obeys_bind; [apply _|apply allocate_states_aligned|intros _].
      apply build_phases_aligned. }
    by apply Hbody. }
  split_and!; [done| |].
  - intros R view h. by apply run_hook_aligned.
  - intros self x new_variable n [st Hst]. specialize (Hbuild _ _ Hst).
    unfold get_variable, replace_variable, bind, state_of. fold n.
    rewrite Hst. simpl. unfold has_key.
    destruct (original_variables st !! x) as [v0|] eqn:Horig; simpl.
    + left. assert (Hcur : is_Some (current_variables st !! x)).
      { apply elem_of_dom. rewrite Hbuild. by apply elem_of_dom. }
      destruct Hcur as [v Hcur]. rewrite Hcur. split; [by exists v|done].
    + right. apply not_elem_of_dom in Horig. rewrite <- Hbuild in Horig.
      apply not_elem_of_dom in Horig. by rewrite Horig.
Qed.

Lemma variables_stay_aligned_witness :
  variables_aligned (net (fst (build demo_start))).
Proof.
  refine (proj1 (variables_stay_aligned demo_start _)).
  intros m st Hst. exfalso. revert Hst.
  change (node_state (net demo_start)) with (∅ : gmap string NodeState).
  by rewrite lookup_empty.
Defined.

(** * Further properties of the resolution and of hooks *)

Lemma yield_present_none d keys :
  first_present d keys = None -> yield_present d keys = [].
Proof.
  rewrite <- head_yield_present. by destruct (yield_present d keys).
Qed.

(** X17.  What a node provides itself wins over its ancestors: when the
    node's own [get_hyperparameter] has a value for a candidate key, and the
    node holds nothing for the earlier keys and has set nothing for itself
    under this key, [find_hyperparameter] returns that value, whatever the
    ancestors have set, also under the earlier keys, unless the override map
    has one of the keys. *)
Theorem own_hyperparameter_wins self keys1 key keys2 v n g st default_value :
  graph n = Some g ->
  node_state n !! name self = Some st ->
  first_present (override_hyperparameters n) (keys1 ++ key :: keys2) = None ->
  yield_node self (set_hyperparameters st) [name self] keys1 = [] ->
  set_hyperparameters st !! name self ≫= (.!! key) = None ->
  get_hyperparameter self key = Some v ->
  find_hyperparameter self (keys1 ++ key :: keys2) default_value n
  = (n, Ok v).
Proof.
  intros Hg Hst Hoverride Hearlier Hunset Hown.
  unfold find_hyperparameter, find_hyperparameters.
  rewrite Hg, (yield_present_none _ _ Hoverride).
  cbn [yield_chain app]. rewrite Hst.
  rewrite yield_node_app, Hearlier. cbn [yield_node yield_set].
  destruct (set_hyperparameters st !! name self) as [hps|]; simpl in Hunset;
    [rewrite Hunset|]; by rewrite Hown.
Qed.

Lemma own_hyperparameter_wins_witness :
  find_hyperparameter model_node ["momentum"; "learning_rate"] (Some (VInt 9))
    demo
  = (demo, Ok (VInt 1)).
Proof.
  apply (own_hyperparameter_wins model_node ["momentum"] "learning_rate" []
           (VInt 1) demo demo_graph
           (default empty_node_state (node_state demo !! "model")));
    vm_compute; reflexivity.
Defined.

(** X18.  No hook, through any method of its view or of the view of another
    node, changes the override map, the global default map or the root node,
    takes the graph away or changes its tree, or removes the state of a
    node. *)
Theorem hooks_keep_network {R} view (h : hook R) n :
  let n' := fst (run_hook view h n) in
  override_hyperparameters n' = override_hyperparameters n
  ∧ default_hyperparameters n' = default_hyperparameters n
  ∧ root_node n' = root_node n
  ∧ (∀ g, graph n = Some g ->
          ∃ g', graph n' = Some g' ∧ graph_root g' = graph_root g)
  ∧ ∀ m, is_Some (node_state n !! m) -> is_Some (node_state n' !! m).
Proof.
  intros n'. pose proof (run_hook_evolves view h n) as Hev. fold n' in Hev.
  destruct Hev as [Hroot Hov Hdef Hst Hg]. split_and!; try done.
  - intros g Hgraph. destruct (Hg g Hgraph) as (g' & ? & ? & _). by eauto.
  - intros m [st Hm]. destruct (Hst m st Hm) as (st' & -> & _). by eauto.
Qed.

Lemma hooks_keep_network_witness :
  default_hyperparameters
    (fst (run_hook sequential_node
            (call_ None (SetData "batch_axis" (VInt 3)) (fun _ => Done VNone))
            demo))
  = default_hyperparameters demo.
Proof.
  apply (hooks_keep_network sequential_node
           (call_ None (SetData "batch_axis" (VInt 3)) (fun _ => Done VNone))
           demo).
Defined.

(** ** Exceptions of hooks *)

#[local] Instance raised_last_composable : Composable raised_last.
Proof.
  split.
  - intros w o. exists []. rewrite app_nil_r. split; [done|].
    intros i h node e Hi. by rewrite lookup_nil in Hi.
  - intros w w1 w2 o (es1 & Hlog1 & Hes1) (es2 & Hlog2 & Hes2).
    exists (es1 ++ es2). split; [by rewrite Hlog2, Hlog1, app_assoc|].
    intros i h node e Hi.
    destruct (decide (i < length es1)) as [Hlt|Hge].
    + rewrite lookup_app_l in Hi by done.
      by destruct (Hes1 i h node e Hi) as [_ ?].
    + rewrite lookup_app_r in Hi by lia.
      destruct (Hes2 _ h node e Hi) as [Hlast ->].
      split; [|done]. rewrite length_app. lia.
Qed.

Lemma quiet_raised_last {A} (m : M Run A) :
  (∀ w, log (fst (m w)) = log w) -> obeys raised_last m.
Proof.
  intros Hm w. exists []. rewrite app_nil_r. split; [apply Hm|].
  intros i h node e Hi. by rewrite lookup_nil in Hi.
Qed.

Lemma call_hook_raised_last {R} h (as_value : R -> value) rel_network body :
  obeys raised_last (call_hook h as_value rel_network body).
Proof.
  intros w. unfold call_hook.
  destruct (run_hook rel_network body (net w)) as [n [r|e]]; simpl;
    (eexists [_; _]; split; [by rewrite <- app_assoc|]);
    intros [|[|i]] h' node' e'; simpl; intros [= ]; by simplify_eq.
Qed.

Lemma visit_raised_last h body node : obeys raised_last (visit h body node).
Proof.
  apply obeys_bind; [apply _| |].
  - apply quiet_raised_last. intros w. apply in_net_log.
  - intros rel. apply obeys_bind; [apply _|apply call_hook_raised_last|].
    intros _. apply obeys_ret, _.
Qed.

Lemma visit_all_raised_last h body :
  obeys raised_last
    (g <- in_net the_graph ;;
     for_each (Graph.architectural_tree_nodes_root_to_leaves g) (visit h body)).
Proof.
  apply obeys_bind; [apply _| |].
  - apply quiet_raised_last. intros w. apply in_net_log.
  - intros g. apply obeys_for_each; [apply _|]. intros node.
    apply visit_raised_last.
Qed.

Lemma compute_node_raised_last node : obeys raised_last (compute_node node).
Proof.
  unfold compute_node.
  apply obeys_bind; [apply _| |].
  { apply quiet_raised_last. intros w. apply in_net_log. }
  intros rel. apply obeys_bind; [apply _|apply call_hook_raised_last|].
  intros input_keys. apply obeys_bind; [apply _| |].
  { apply obeys_collect; [apply _|]. intros input_key.
    apply quiet_raised_last. intros w. apply in_net_log. }
  intros ins. apply obeys_bind; [apply _| |].
  { apply quiet_raised_last. intros w. apply in_net_log. }
  intros _. apply obeys_bind; [apply _|apply call_hook_raised_last|].
  intros output_res. apply obeys_assert, _.
Qed.

Lemma build_raised_last : obeys raised_last build.
Proof.
  intros w. unfold build. destruct (is_built (net w)); [apply comp_refl|].
  revert w. change (obeys raised_last build_body). unfold build_body.
  apply obeys_bind; [apply _| |intros _].
  { apply quiet_raised_last. intros w.
    by destruct (allocate_states_spec w) as (_ & Hlog & _). }
  apply obeys_bind; [apply _|apply visit_all_raised_last|intros _].
  apply obeys_bind; [apply _|apply visit_all_raised_last|intros _].
  apply obeys_bind; [apply _| |intros _].
  { apply obeys_bind; [apply _| |intros _].
    - apply quiet_raised_last. intros w. apply in_net_log.
    - intros w. exists [Freeze]. split; [done|].
      intros [|i] h node e; simpl; intros [= ]. }
  apply obeys_bind; [apply _| |intros _].
  { apply obeys_bind; [apply _| |intros g].
    - apply quiet_raised_last. intros w. apply in_net_log.
    - apply obeys_for_each; [apply _|]. apply compute_node_raised_last. }
  apply visit_all_raised_last.
Qed.

(** X19.  [build] swallows no exception of a hook: when a hook, of whichever
    phase, is left by an exception, nothing happens after it and [build] ends
    in that exception. *)
Theorem hook_exception_ends_build w i h node e :
  log (fst (build w)) !! (length (log w) + i) = Some (Exit h node (Raise e)) ->
  snd (build w) = Raise e
  ∧ S (length (log w) + i) = length (log (fst (build w))).
Proof.
  intros Hi. destruct (build_raised_last w) as (es & Hlog & Hes).
  rewrite Hlog in Hi |- *. rewrite lookup_app_r in Hi by lia.
  replace (length (log w) + i - length (log w)) with i in Hi by lia.
  destruct (Hes i _ _ _ Hi) as [Hlast Hfail]. split.
  - by destruct (snd (build w)); simplify_eq/=.
  - rewrite length_app. lia.
Qed.

Lemma hook_exception_ends_build_witness :
  snd (build hasty_start) = Raise (KeyError "weight")
  ∧ 4 = length (log (fst (build hasty_start))).
Proof.
  apply (hook_exception_ends_build hasty_start 3 InitState "head"
           (KeyError "weight")).
  vm_compute; reflexivity.
Defined.
